(** * The composition buffer of [composer/internal/composition.cc]

    A shallow embedding of [mozc::composer::Composition] and the properties
    of its editing and position-mapping operations.

    Conventions of the embedding.
    - [size_t] values are [N]; every [+] the source performs on them is
      [size_add], addition modulo [SIZE_MAX + 1].  The only subtraction of
      the source ([rest_pos -= chunk_length]) runs under
      [rest_pos > chunk_length], so it is plain [N] subtraction.
    - [chunks_] is a [std::list<CharChunk*>] whose elements are owned by the
      list and never aliased: it is a [list chunk].  An iterator is the
      index of its element, [chunks_.end()] is [length chunks_], and a
      [CharChunk*] handed around inside the class is the index of the chunk.
    - Dereferencing [end()] and a failing [CHECK] are outcomes of their own
      ([Fault]); [LOG] lines are returned next to the value.
    - [CharChunk], [Table] and the transliterators are declared in headers
      that are not part of the sources at hand.  The buffer is therefore
      embedded over an interface, [CharChunk.Interface], with one field per
      member function that the embedded part of [composition.cc] calls.
      Two implementations of the interface, [SpecChunk] and [DirectChunk],
      serve for the statements at concrete buffers.
    - [table_] is taken to be set ([SetTable] has run).  [GetPreedit],
      which is [GetString] followed by [Util::SubString], is not
      embedded. *)

From Stdlib Require Import NArith Ascii String Lia.
From stdpp Require Import base numbers list strings pretty.

Local Open Scope N_scope.

(** ** [size_t] *)

Definition SIZE_MAX : N := 18446744073709551615.

Definition size_add (a b : N) : N := (a + b) mod (SIZE_MAX + 1).

(** ** Outcomes of a member function *)

Inductive fault :=
| DerefEnd      (* dereferencing [chunks_.end()]: undefined behaviour *)
| CheckFailed.  (* a failing [CHECK]: the process aborts *)

Inductive result (A : Type) :=
| Ok (a : A)
| Fault (f : fault)
| OutOfFuel.    (* the bound put on a [while (true)] loop was reached *)

Arguments Ok {A} a.
Arguments Fault {A} f.
Arguments OutOfFuel {A}.

Inductive severity := WARNING | ERROR.

Definition LogEntry : Type := severity * string.

(* [enum TrimMode]: its three enumerators, and any other value that a
   variable of the type holds, which the [switch] of [GetStringWithModes]
   provides for and prints as a number. *)
Inductive TrimMode := TRIM | ASIS | FIX | OtherTrimMode (value : N).

(** ** The interface of [CharChunk] seen from [composition.cc] *)

Module CharChunk.

(** A transliterator pointer is [option T12r]; [NULL] is [None].  Member
    functions that write through [this] return the new chunk; an out
    parameter is returned next to it. *)
Class Interface (T12r Table chunk : Type) := {
  (* [CharChunk()] *)
  new : chunk;
  (* [size_t GetLength(const TransliteratorInterface *t12r) const] *)
  GetLength : chunk -> option T12r -> N;
  (* [bool SplitChunk(t12r, position, CharChunk *left_new_chunk)]:
     [this] afterwards and [*left_new_chunk] afterwards *)
  SplitChunk : chunk -> option T12r -> N -> chunk -> chunk * chunk;
  (* [void AddInput(const Table &table, string *input)] *)
  AddInput : chunk -> Table -> string -> chunk * string;
  (* [bool IsAppendable(const TransliteratorInterface *t12r) const] *)
  IsAppendable : chunk -> option T12r -> bool;
  (* [void SetTransliterator(const TransliteratorInterface *t12r)] *)
  SetTransliterator : chunk -> option T12r -> chunk;
  (* [const TransliteratorInterface *GetTransliterator(t12r) const] *)
  GetTransliterator : chunk -> option T12r -> option T12r;
  (* [void AppendResult(table, t12r, string *result) const] and its two
     variants: [*result] afterwards *)
  AppendResult : chunk -> Table -> option T12r -> string -> string;
  AppendTrimedResult : chunk -> Table -> option T12r -> string -> string;
  AppendFixedResult : chunk -> Table -> option T12r -> string -> string
}.

End CharChunk.

(** ** [class Composition] *)

Module Composition.

Section WithCharChunk.

Context {T12r Table chunk : Type}.
Context `{EqDecision T12r} `{!CharChunk.Interface T12r Table chunk}.

Definition kNullT12r : option T12r := None.

Record t := mk {
  chunks_ : list chunk;
  input_t12r_ : option T12r;
  table_ : Table
}.

Definition with_chunks (comp : t) (chunks : list chunk) : t :=
  mk chunks (input_t12r_ comp) (table_ comp).

(** *** State and fault monad of the non-const member functions *)

Definition M (A : Type) : Type := t -> result (A * t).

Definition ret {A} (a : A) : M A := fun comp => Ok (a, comp).

Definition bind {A B} (m : M A) (k : A -> M B) : M B :=
  fun comp =>
    match m comp with
    | Ok (a, comp') => k a comp'
    | Fault f => Fault f
    | OutOfFuel => OutOfFuel
    end.

Definition raise {A} (f : fault) : M A := fun _ => Fault f.

Definition gets {A} (f : t -> A) : M A := fun comp => Ok (f comp, comp).

Definition set_chunks (chunks : list chunk) : M unit :=
  fun comp => Ok (tt, with_chunks comp chunks).

(* dereferencing the iterator [it] *)
Definition deref (it : nat) : M chunk :=
  fun comp =>
    match chunks_ comp !! it with
    | Some c => Ok (c, comp)
    | None => Fault DerefEnd
    end.

(* [it->f(...)] for a member function [f] of the chunk at [it] that writes
   through [this] *)
Definition update (it : nat) (f : chunk -> chunk) : M unit :=
  fun comp =>
    match chunks_ comp !! it with
    | Some c => Ok (tt, with_chunks comp (<[it := f c]> (chunks_ comp)))
    | None => Fault DerefEnd
    end.

Notation "'let*' x ':=' m 'in' k" := (bind m (fun x => k))
  (at level 10, x name, m at level 100, k at level 200).
Notation "'let*' ' pat ':=' m 'in' k" :=
  (bind m (fun x => match x with pat => k end))
  (at level 10, pat pattern, m at level 100, k at level 200).
Notation "m ;; k" := (bind m (fun _ => k))
  (at level 100, right associativity).

(* [chunks_.begin()], [chunks_.end()] *)
Definition begin_ : nat := 0%nat.
Definition end_ (comp : t) : nat := length (chunks_ comp).

(** *** [Composition::GetChunkAt] *)

(* The [for] loop, at iterator [it] with [rest] the chunks from [it] on.
   [None]: the loop ran to [chunks_.end()]. *)
Fixpoint GetChunkAt_loop (transliterator : option T12r) (rest_pos : N)
    (it : nat) (rest : list chunk) : option (nat * N) :=
  match rest with
  | [] => None
  | c :: rest' =>
      let chunk_length := CharChunk.GetLength c transliterator in
      if rest_pos <=? chunk_length then Some (it, rest_pos)
      else GetChunkAt_loop transliterator (rest_pos - chunk_length)
             (S it) rest'
  end.

(* Returns what the source stores in [chunk_it] and [inner_position]. *)
Definition GetChunkAt (position : N) (transliterator : option T12r)
    (comp : t) : nat * N :=
  match chunks_ comp with
  | [] => (begin_, 0)
  | c0 :: _ =>
      match GetChunkAt_loop transliterator position begin_ (chunks_ comp) with
      | Some found => found
      | None =>
          (* [--end()] is the last chunk, which exists here *)
          (pred (end_ comp),
           CharChunk.GetLength (List.last (chunks_ comp) c0) transliterator)
      end
  end.

(** *** [Composition::GetPosition], [Composition::GetLength] *)

Definition GetPosition (transliterator : option T12r) (cur_it : nat)
    (comp : t) : N :=
  foldl (fun position c =>
           size_add position (CharChunk.GetLength c transliterator))
        0 (take cur_it (chunks_ comp)).

Definition GetLength (comp : t) : N := GetPosition kNullT12r (end_ comp) comp.

(** *** [Composition::ConvertPosition] *)

Definition ConvertPosition (position_from : N)
    (transliterator_from transliterator_to : option T12r) : M N :=
  if decide (transliterator_from = transliterator_to) then ret position_from
  else
    let* '(chunk_it, inner_position_from) :=
      gets (GetChunkAt position_from transliterator_from) in
    let* end_it := gets end_ in
    (* No chunk was found, return 0 as a fallback. *)
    if decide (chunk_it = end_it) then ret 0
    else
      let* c := deref chunk_it in
      let chunk_length_from := CharChunk.GetLength c transliterator_from in
      if negb (inner_position_from <=? chunk_length_from)
      then raise CheckFailed
      else
        let* position_to := gets (GetPosition transliterator_to chunk_it) in
        if inner_position_from =? 0 then ret position_to
        else
          let* c := deref chunk_it in
          let chunk_length_to := CharChunk.GetLength c transliterator_to in
          if inner_position_from =? chunk_length_from
          then ret (size_add position_to chunk_length_to)
          else if chunk_length_to <? inner_position_from
          then ret (size_add position_to chunk_length_to)
          else
            (* the [DCHECK] of the source holds by the test just made *)
            ret (size_add position_to inner_position_from).

(** *** [Composition::MaybeSplitChunkAt] *)

(* [chunks_.insert(it, c)]: [c] goes in front of the element at [it], which
   is afterwards at [S it]. *)
Definition insert_before (it : nat) (c : chunk) (chunks : list chunk)
    : list chunk :=
  take it chunks ++ c :: drop it chunks.

(* Returns the [CharChunk*] result ([None] for [NULL]) and the iterator
   stored in the out parameter. *)
Definition MaybeSplitChunkAt (pos : N) : M (option nat * nat) :=
  (* The position is the beginning of composition. *)
  if pos <=? 0 then ret (None, begin_)
  else
    let* '(it, inner_position) := gets (GetChunkAt pos kNullT12r) in
    let* c := deref it in
    if inner_position =? CharChunk.GetLength c kNullT12r
    then ret (Some it, S it)
    else
      let '(c', left_chunk) :=
        CharChunk.SplitChunk c kNullT12r inner_position CharChunk.new in
      let* chunks := gets chunks_ in
      set_chunks (insert_before it left_chunk (<[it := c']> chunks)) ;;
      ret (Some it, S it).

(** *** [Composition::InsertChunk], [Composition::GetInsertionChunk] *)

(* Returns the new chunk and the iterator, which still designates the chunk
   it designated before. *)
Definition InsertChunk (it : nat) : M (nat * nat) :=
  let* input_t12r := gets input_t12r_ in
  let new_chunk := CharChunk.SetTransliterator CharChunk.new input_t12r in
  let* chunks := gets chunks_ in
  set_chunks (insert_before it new_chunk chunks) ;;
  ret (it, S it).

Definition GetInsertionChunk (it : nat) : M (nat * nat) :=
  if decide (it = begin_) then InsertChunk it
  else
    let left_it := pred it in
    let* left := deref left_it in
    let* input_t12r := gets input_t12r_ in
    if CharChunk.IsAppendable left input_t12r then ret (left_it, it)
    else InsertChunk it.

(** *** [Composition::InsertAt] *)

(* The [while (true)] loop; [fuel] bounds the number of its iterations. *)
Fixpoint InsertAt_loop (fuel : nat) (chunk : nat) (key : string) (it : nat)
    : M nat :=
  match fuel with
  | O => fun _ => OutOfFuel
  | S fuel' =>
      let* c := deref chunk in
      let* table := gets table_ in
      let '(c', key') := CharChunk.AddInput c table key in
      update chunk (fun _ => c') ;;
      if decide (key' = EmptyString) then ret it
      else
        let* '(chunk', it') := InsertChunk it in
        InsertAt_loop fuel' chunk' key' it'
  end.

Definition InsertAt (fuel : nat) (pos : N) (input : string) : M N :=
  if decide (input = EmptyString) then ret pos
  else
    let* '(_, it) := MaybeSplitChunkAt pos in
    let* '(chunk, it) := GetInsertionChunk it in
    let* it := InsertAt_loop fuel chunk input it in
    gets (GetPosition kNullT12r it).

(** *** [Composition::DeleteAt] *)

(* Deletes a right-hand character of the composition. *)
Definition DeleteAt (position : N) : M N :=
  let* '(_, chunk_it) := MaybeSplitChunkAt position in
  let* new_position := gets (GetPosition kNullT12r chunk_it) in
  let* end_it := gets end_ in
  if decide (chunk_it = end_it) then ret new_position
  else
    let* c := deref chunk_it in
    if CharChunk.GetLength c kNullT12r =? 1 then
      let* chunks := gets chunks_ in
      set_chunks (delete chunk_it chunks) ;;
      ret new_position
    else
      (* [left_deleted_chunk] is a local and dies with the call *)
      update chunk_it
        (fun c => fst (CharChunk.SplitChunk c kNullT12r 1 CharChunk.new)) ;;
      ret new_position.

(** *** [Composition::SetTransliterator], [Composition::GetTransliterator] *)

(* [while (chunk_it != end_it)]: every iteration that does not fault moves
   [chunk_it] one chunk to the right, so [S (length chunks_)] iterations
   are never used up. *)
Fixpoint SetTransliterator_loop (fuel : nat) (transliterator : option T12r)
    (chunk_it end_it : nat) : M unit :=
  if decide (chunk_it = end_it) then ret tt
  else
    match fuel with
    | O => fun _ => OutOfFuel
    | S fuel' =>
        update chunk_it
          (fun c => CharChunk.SetTransliterator c transliterator) ;;
        SetTransliterator_loop fuel' transliterator (S chunk_it) end_it
    end.

(* Returns the lines it logs. *)
Definition SetTransliterator (position_from position_to : N)
    (transliterator : option T12r) : M (list LogEntry) :=
  if position_to <? position_from then
    ret [(ERROR,
          "position_from should not be greater than position_to."%string)]
  else
    let* '(chunk_it, _) := gets (GetChunkAt position_from kNullT12r) in
    let* '(end_it, _) := gets (GetChunkAt position_to kNullT12r) in
    let* n := gets end_ in
    (* chunk_it and end_it can be the same iterator from the beginning. *)
    SetTransliterator_loop (S n) transliterator chunk_it end_it ;;
    update end_it (fun c => CharChunk.SetTransliterator c transliterator) ;;
    ret [].

Definition GetTransliterator (position : N) : M (option T12r) :=
  let* '(chunk_it, _) := gets (GetChunkAt position kNullT12r) in
  let* c := deref chunk_it in
  ret (CharChunk.GetTransliterator c kNullT12r).

(** *** [Composition::SetInputMode], [Composition::SetDisplayMode] *)

Definition SetInputMode (transliterator : option T12r) : M unit :=
  fun comp => Ok (tt, mk (chunks_ comp) transliterator (table_ comp)).

Definition SetDisplayMode (position : N) (transliterator : option T12r)
    : M N :=
  let* len := gets GetLength in
  SetTransliterator 0 len transliterator ;;
  SetInputMode transliterator ;;
  gets GetLength.

(** *** [Composition::GetStringWithModes], [Composition::GetString] *)

(* Both are [const]: they return [*composition] and the lines they log.
   The chunks are distinct heap objects, so the loop of
   [GetStringWithModes], which runs until the element equals
   [chunks_.back()], stops at the last chunk.  In the [default] branch of
   the [switch] the last chunk is not rendered and a line is logged. *)
Definition GetStringWithModes (transliterator : option T12r)
    (trim_mode : TrimMode) (composition : string) (comp : t)
    : string * list LogEntry :=
  let composition := EmptyString in
  match chunks_ comp with
  | [] => (composition, [(WARNING, "The composition size is zero."%string)])
  | c0 :: _ =>
      let composition :=
        foldl (fun acc c =>
                 CharChunk.AppendResult c (table_ comp) transliterator acc)
              composition (removelast (chunks_ comp)) in
      let c := List.last (chunks_ comp) c0 in
      match trim_mode with
      | TRIM =>
          (CharChunk.AppendTrimedResult c (table_ comp) transliterator
             composition, [])
      | ASIS =>
          (CharChunk.AppendResult c (table_ comp) transliterator composition,
           [])
      | FIX =>
          (CharChunk.AppendFixedResult c (table_ comp) transliterator
             composition, [])
      | OtherTrimMode value =>
          (composition,
           [(WARNING, ("Unexpected trim mode: " +:+ pretty value)%string)])
      end
  end.

Definition GetString (composition : string) (comp : t)
    : string * list LogEntry :=
  let composition := EmptyString in
  match chunks_ comp with
  | [] => (composition, [(WARNING, "The composition size is zero."%string)])
  | _ :: _ =>
      (foldl (fun acc c =>
                CharChunk.AppendResult c (table_ comp) kNullT12r acc)
             composition (chunks_ comp), [])
  end.

Definition GetStringWithTransliterator (transliterator : option T12r)
    (output : string) (comp : t) : string * list LogEntry :=
  GetStringWithModes transliterator FIX output comp.

Definition GetStringWithTrimMode (trim_mode : TrimMode) (output : string)
    (comp : t) : string * list LogEntry :=
  GetStringWithModes kNullT12r trim_mode output comp.

(** *** [Composition::Erase] *)

Definition Erase : M unit := set_chunks [].

(** *** Vocabulary of the statements *)

(* The sum of the lengths of the chunks, without wrap-around. *)
Definition sum_lengths (transliterator : option T12r) (chunks : list chunk)
    : N :=
  foldr (fun c acc => CharChunk.GetLength c transliterator + acc) 0 chunks.

(* [position] falls inside the chunk at [it], [i] units after its start:
   the lookup of the source finds that chunk and that inner offset, and the
   chunks in front of it account for the rest of the position. *)
Definition position_in_chunk (transliterator : option T12r) (comp : t)
    (position : N) (it : nat) (i : N) : Prop :=
  GetChunkAt position transliterator comp = (it, i)
  /\ (it < end_ comp)%nat
  /\ position = sum_lengths transliterator (take it (chunks_ comp)) + i.

(* A contract for [SplitChunk]: under the default view the two parts of a
   chunk split strictly inside are together as long as the chunk was. *)
Definition split_keeps_length : Prop :=
  forall (c : chunk) (position : N),
    0 < position < CharChunk.GetLength c kNullT12r ->
    let parts := CharChunk.SplitChunk c kNullT12r position CharChunk.new in
    CharChunk.GetLength (fst parts) kNullT12r
    + CharChunk.GetLength (snd parts) kNullT12r
    = CharChunk.GetLength c kNullT12r.

(* A contract for [SplitChunk]: under the default view the part split off a
   chunk strictly inside it has as many units as were asked for. *)
Definition split_left_length : Prop :=
  forall (c : chunk) (position : N),
    0 < position < CharChunk.GetLength c kNullT12r ->
    CharChunk.GetLength
      (snd (CharChunk.SplitChunk c kNullT12r position CharChunk.new))
      kNullT12r
    = position.

(* [SplitChunk] of [c] at [position] is exact: under the default view the
   part split off has [position] units, and the two parts are together as
   long as [c] was. *)
Definition split_exact (c : chunk) (position : N) : Prop :=
  let parts := CharChunk.SplitChunk c kNullT12r position CharChunk.new in
  CharChunk.GetLength (snd parts) kNullT12r = position
  /\ CharChunk.GetLength (fst parts) kNullT12r + position
     = CharChunk.GetLength c kNullT12r.

(* The split that [MaybeSplitChunkAt position] makes, strictly inside the
   chunk which the lookup finds, is exact. *)
Definition split_at_exact (position : N) (comp : t) : Prop :=
  forall (it : nat) (i : N) (c : chunk),
    GetChunkAt position kNullT12r comp = (it, i) ->
    chunks_ comp !! it = Some c ->
    0 < i < CharChunk.GetLength c kNullT12r ->
    split_exact c i.

(* The chunk that [InsertChunk] puts into the sequence. *)
Definition fresh_chunk (comp : t) : chunk :=
  CharChunk.SetTransliterator CharChunk.new (input_t12r_ comp).

(* The chunk that [InsertAt pos] feeds first: the one [GetInsertionChunk]
   hands out at the boundary which [MaybeSplitChunkAt] makes at [pos];
   [None] when [MaybeSplitChunkAt] faults, which it does on the empty buffer
   only. *)
Definition insertion_chunk (pos : N) (comp : t) : option chunk :=
  match (let* '(_, it) := MaybeSplitChunkAt pos in
         GetInsertionChunk it) comp with
  | Ok ((ptr, _), comp') => chunks_ comp' !! ptr
  | _ => None
  end.

(* [key] is what is left of [input] once a prefix of it is taken, and is
   not empty. *)
Definition rest_of (input key : string) : Prop :=
  key <> EmptyString /\ exists taken : string, input = (taken ++ key)%string.

(* [AddInput] on [c] takes a prefix of [key] that is not empty, and leaves
   the rest of [key] in it. *)
Definition takes_some (table : Table) (c : chunk) (key : string) : Prop :=
  exists taken : string,
    taken <> EmptyString
    /\ key = (taken ++ snd (CharChunk.AddInput c table key))%string.

(* [AddInput] with [key] leaves [c] longer under the default view. *)
Definition lengthens (table : Table) (c : chunk) (key : string) : Prop :=
  CharChunk.GetLength c kNullT12r
  < CharChunk.GetLength (fst (CharChunk.AddInput c table key)) kNullT12r.

(* Every call of [AddInput] that [InsertAt pos input] makes takes some of
   what it is fed and lengthens its chunk: the first call is on the
   insertion chunk with [input], the later ones are on fresh chunks with
   what is left of [input]. *)
Definition feeds_lengthen (pos : N) (input : string) (comp : t) : Prop :=
  (forall c : chunk,
     insertion_chunk pos comp = Some c ->
     takes_some (table_ comp) c input /\ lengthens (table_ comp) c input)
  /\ (forall key : string,
        rest_of input key ->
        takes_some (table_ comp) (fresh_chunk comp) key
        /\ lengthens (table_ comp) (fresh_chunk comp) key).

(* The chunk that begins at the boundary which [MaybeSplitChunkAt] makes at
   [position]; [None] when the boundary is [chunks_.end()], and when
   [MaybeSplitChunkAt] faults, which it does on the empty buffer only. *)
Definition chunk_at (position : N) (comp : t) : option chunk :=
  match MaybeSplitChunkAt position comp with
  | Ok ((_, it), comp') => chunks_ comp' !! it
  | _ => None
  end.

End WithCharChunk.

Arguments t : clear implicits.

End Composition.

(** ** A chunk with a rule table *)

Module SpecChunk.

Local Open Scope string_scope.

(** Modelled from the spec: the rendering policies of
    [composer/internal/transliterators.h], which is not among the sources.
    Of the closed set of the spec, the raw keystrokes and the phonetic
    script; "use-chunk-default" is the [NULL] pointer, [None]. *)
Inductive policy := Raw | PhoneticScript.

#[global] Instance policy_eq_dec : EqDecision policy.
Proof. solve_decision. Defined.

(** Modelled from the spec: the rule table of [composer/table.h], which is
    not among the sources, as the list of its rules: raw keystrokes and
    their converted output. *)
Record rule := { rule_input : string; rule_output : string }.

Definition Table : Type := list rule.

(** Modelled from the spec: the lookup of the rule table, the output of the
    rule whose input is the whole fragment. *)
Definition lookup (table : Table) (fragment : string) : option string :=
  rule_output <$>
    List.find (fun r => bool_decide (rule_input r = fragment)) table.

(** Modelled from the spec: longest-prefix match of the rule table; while
    some rule needs more keystrokes than the fragment has, the fragment
    stays pending. *)
Definition has_longer_rule (table : Table) (fragment : string) : bool :=
  existsb (fun r => String.prefix fragment (rule_input r)
                    && negb (bool_decide (rule_input r = fragment))) table.

(** Modelled from the spec: the units of a text, which [Util::CharsLen] of
    [base/util.h] counts; the header is not among the sources.  A unit is a
    character of the UTF-8 text: a byte that is not a continuation byte,
    with the continuation bytes behind it. *)
Definition is_continuation (b : ascii) : bool :=
  ((128 <=? N_of_ascii b) && (N_of_ascii b <? 192))%N.

(** Modelled from the spec: [Util::CharsLen], the number of units. *)
Fixpoint CharsLen (s : string) : N :=
  match s with
  | EmptyString => 0
  | String b s' => (if is_continuation b then 0 else 1) + CharsLen s'
  end.

Definition starts_with_continuation (s : string) : bool :=
  match s with
  | EmptyString => false
  | String b _ => is_continuation b
  end.

(** Modelled from the spec: the units of a text, in order. *)
Fixpoint chars (s : string) : list string :=
  match s with
  | EmptyString => []
  | String b s' =>
      match chars s' with
      | ch :: rest =>
          if starts_with_continuation ch then String b ch :: rest
          else String b EmptyString :: ch :: rest
      | [] => [String b EmptyString]
      end
  end.

(** Modelled from the spec: the first [n] units of a text, and the rest. *)
Definition take_chars (n : nat) (s : string) : string :=
  String.concat "" (take n (chars s)).

Definition drop_chars (n : nat) (s : string) : string :=
  String.concat "" (drop n (chars s)).

(** Modelled from the spec: [CharChunk] of
    [composer/internal/char_chunk.h], which is not among the sources, with
    the attributes of the spec's data model. *)
Record chunk := mk {
  raw : string;
  converted : string;
  pending : string;
  rendering_override : option policy
}.

(** Modelled from the spec: a chunk is created empty. *)
Definition new : chunk := mk "" "" "" None.

(** Modelled from the spec: the policy a chunk is shown under;
    "use-chunk-default" asks the chunk for its override, and a chunk without
    one shows the phonetic script. *)
Definition effective (c : chunk) (p : option policy) : policy :=
  match p, rendering_override c with
  | Some q, _ => q
  | None, Some q => q
  | None, None => PhoneticScript
  end.

(** Modelled from the spec: [render], as is; the pending text is shown
    verbatim behind the converted text. *)
Definition render (c : chunk) (p : option policy) : string :=
  match effective c p with
  | Raw => raw c
  | PhoneticScript => converted c ++ pending c
  end.

(** Modelled from the spec: [length], the unit count of [render]. *)
Definition GetLength (c : chunk) (p : option policy) : N :=
  CharsLen (render c p).

(** Modelled from the spec: [render], trimmed; the trailing unconverted
    remainder is dropped. *)
Definition render_trimmed (c : chunk) (p : option policy) : string :=
  match effective c p with
  | Raw => raw c
  | PhoneticScript => converted c
  end.

(** Modelled from the spec: [render], fixed; the pending text is converted
    by the rule it completes, if there is one. *)
Definition render_fixed (c : chunk) (table : Table) (p : option policy)
    : string :=
  match effective c p with
  | Raw => raw c
  | PhoneticScript =>
      converted c ++ default (pending c) (lookup table (pending c))
  end.

(** Modelled from the spec: [add_input] for one keystroke.  A chunk whose
    text is converted and which has nothing pending is complete and takes
    no keystroke; otherwise the keystroke joins the pending text, which is
    converted when it is the input of a rule and stays pending while a
    longer rule may match.  Where no rule applies, a chunk with nothing
    pending shows the keystroke as typed, and a chunk with pending text does
    not take it.  [None]: the keystroke is not taken. *)
Definition add_key (table : Table) (c : chunk) (k : ascii) : option chunk :=
  let key := String k "" in
  let fragment := pending c ++ key in
  if bool_decide (pending c = "") && negb (bool_decide (converted c = ""))
  then None
  else
    match lookup table fragment with
    | Some output =>
        Some (mk (raw c ++ key) (converted c ++ output) ""
                (rendering_override c))
    | None =>
        if has_longer_rule table fragment
        then Some (mk (raw c ++ key) (converted c) fragment
                     (rendering_override c))
        else if bool_decide (pending c = "")
        then Some (mk (raw c ++ key) key "" (rendering_override c))
        else None
    end.

(** Modelled from the spec: [add_input]; consumes a prefix of the key and
    returns the rest of it. *)
Fixpoint AddInput (c : chunk) (table : Table) (key : string)
    : chunk * string :=
  match key with
  | EmptyString => (c, key)
  | String k key' =>
      match add_key table c k with
      | Some c' => AddInput c' table key'
      | None => (c, key)
      end
  end.

(** Modelled from the spec: [is_appendable]; the chunk is open for more raw
    input, and the policy does not conflict with its override. *)
Definition IsAppendable (c : chunk) (p : option policy) : bool :=
  negb (bool_decide (pending c = ""))
  && (bool_decide (p = None) || bool_decide (p = rendering_override c)).

(** Modelled from the spec: [split_at], with one split index for every
    representation; the left part has the first [position] units, the chunk
    keeps the rest, and both keep the override. *)
Definition SplitChunk (c : chunk) (p : option policy) (position : N)
    (left_new_chunk : chunk) : chunk * chunk :=
  let k := N.to_nat position in
  let k' := (k - N.to_nat (CharsLen (converted c)))%nat in
  (mk (drop_chars k (raw c)) (drop_chars k (converted c))
      (drop_chars k' (pending c)) (rendering_override c),
   mk (take_chars k (raw c)) (take_chars k (converted c))
      (take_chars k' (pending c)) (rendering_override c)).

(** Modelled from the spec: [set_rendering_override]. *)
Definition SetTransliterator (c : chunk) (p : option policy) : chunk :=
  mk (raw c) (converted c) (pending c) p.

(** Modelled from the spec: [get_rendering_override]; the chunk's own for
    "use-chunk-default". *)
Definition GetTransliterator (c : chunk) (p : option policy)
    : option policy :=
  match p with
  | Some _ => p
  | None => rendering_override c
  end.

#[global] Instance interface : CharChunk.Interface policy Table chunk := {
  CharChunk.new := new;
  CharChunk.GetLength := GetLength;
  CharChunk.SplitChunk := SplitChunk;
  CharChunk.AddInput := AddInput;
  CharChunk.IsAppendable := IsAppendable;
  CharChunk.SetTransliterator := SetTransliterator;
  CharChunk.GetTransliterator := GetTransliterator;
  CharChunk.AppendResult := fun c _ p result => result ++ render c p;
  CharChunk.AppendTrimedResult :=
    fun c _ p result => result ++ render_trimmed c p;
  CharChunk.AppendFixedResult :=
    fun c table p result => result ++ render_fixed c table p
}.

(** Modelled from the spec: the rules of its scenarios; "tt" is pending
    because "tto" is a rule. *)
Definition scenario_table : Table :=
  [ {| rule_input := "ka"; rule_output := "か" |};
    {| rule_input := "tto"; rule_output := "っと" |};
    {| rule_input := "ki"; rule_output := "き" |} ].

(* A buffer over the scenario table, with the input mode never set. *)
Definition composition_of (chunks : list chunk)
    : Composition.t policy Table chunk :=
  Composition.mk chunks None scenario_table.

(* The chunks and the buffers the scenarios go through. *)
Definition ka : chunk := mk "ka" "か" "" None.
Definition ki : chunk := mk "ki" "き" "" None.
Definition t_pending : chunk := mk "t" "" "t" None.
Definition tt_pending : chunk := mk "tt" "" "tt" None.
Definition tto : chunk := mk "tto" "っと" "" None.
Definition t_tsu : chunk := mk "t" "っ" "" None.

Definition empty := composition_of [].
Definition buffer_ka := composition_of [ka].
Definition buffer_ka_ki := composition_of [ka; ki].
Definition buffer_t := composition_of [t_pending].
Definition buffer_tt := composition_of [tt_pending].
Definition buffer_tto := composition_of [tto].
Definition buffer_t_tsu := composition_of [t_tsu].

End SpecChunk.

(** ** A chunk of direct input *)

Module DirectChunk.

Local Open Scope string_scope.

(** Modelled from the spec: a [CharChunk] for text that bypasses rule
    matching; it holds the keystrokes as typed, one unit each under every
    policy.  [char_chunk.h] is not among the sources. *)
Definition chunk : Type := string.

(** Modelled from the spec: [length], the number of keystrokes. *)
Definition GetLength (c : chunk) (p : option unit) : N :=
  N.of_nat (String.length c).

(** Modelled from the spec: [split_at]; the left part has the first
    [position] keystrokes, the chunk keeps the rest. *)
Definition SplitChunk (c : chunk) (p : option unit) (position : N)
    (left_new_chunk : chunk) : chunk * chunk :=
  (String.substring (N.to_nat position)
     (String.length c - N.to_nat position) c,
   String.substring 0 (N.to_nat position) c).

#[global] Instance interface : CharChunk.Interface unit unit chunk := {
  CharChunk.new := "";
  CharChunk.GetLength := GetLength;
  CharChunk.SplitChunk := SplitChunk;
  CharChunk.AddInput := fun c _ input => (c ++ input, "");
  CharChunk.IsAppendable := fun _ _ => true;
  CharChunk.SetTransliterator := fun c _ => c;
  CharChunk.GetTransliterator := fun _ p => p;
  CharChunk.AppendResult := fun c _ _ result => result ++ c;
  CharChunk.AppendTrimedResult := fun c _ _ result => result ++ c;
  CharChunk.AppendFixedResult := fun c _ _ result => result ++ c
}.

Definition composition_of (chunks : list chunk)
    : Composition.t unit unit chunk :=
  Composition.mk chunks None tt.

Definition buffer_ad := composition_of ["ad"].

End DirectChunk.


(** ** [Composition::InsertKeyAndPreeditAt] *)

Module CharChunkPreedit.

(** The member function of [CharChunk] that only
    [Composition::InsertKeyAndPreeditAt] calls. *)
Class Interface (Table chunk : Type) := {
  (* [void AddInputAndConvertedChar(const Table &table, string *key,
     string *converted_char)]: [this], [*key] and [*converted_char]
     afterwards *)
  AddInputAndConvertedChar :
    chunk -> Table -> string -> string -> chunk * (string * string)
}.

End CharChunkPreedit.

Module CompositionExt.

Import Composition.

Section WithCharChunk.

Context {T12r Table chunk : Type}.
Context `{EqDecision T12r} `{!CharChunk.Interface T12r Table chunk}.
Context `{!CharChunkPreedit.Interface Table chunk}.

Notation "'let*' x ':=' m 'in' k" := (bind m (fun x => k))
  (at level 10, x name, m at level 100, k at level 200).
Notation "'let*' ' pat ':=' m 'in' k" :=
  (bind m (fun x => match x with pat => k end))
  (at level 10, pat pattern, m at level 100, k at level 200).
Notation "m ;; k" := (bind m (fun _ => k))
  (at level 100, right associativity).

(* The [while (true)] loop of [InsertKeyAndPreeditAt]; [fuel] bounds the
   number of its iterations. *)
Fixpoint InsertKeyAndPreeditAt_loop (fuel : nat) (chunk_ptr : nat)
    (raw_char converted_char : string) (it : nat)
    : M (T12r := T12r) (Table := Table) (chunk := chunk) nat :=
  match fuel with
  | O => fun _ => OutOfFuel
  | S fuel' =>
      let* c := deref chunk_ptr in
      let* table := gets table_ in
      let '(c', (raw_char', converted_char')) :=
        CharChunkPreedit.AddInputAndConvertedChar c table raw_char
          converted_char in
      update chunk_ptr (fun _ => c') ;;
      if decide (raw_char' = EmptyString /\ converted_char' = EmptyString)
      then ret it
      else
        let* '(chunk_ptr', it') := InsertChunk it in
        InsertKeyAndPreeditAt_loop fuel' chunk_ptr' raw_char'
          converted_char' it'
  end.

Definition InsertKeyAndPreeditAt (fuel : nat) (pos : N)
    (key preedit : string)
    : M (T12r := T12r) (Table := Table) (chunk := chunk) N :=
  if decide (key = EmptyString /\ preedit = EmptyString) then ret pos
  else
    let* '(_, it) := MaybeSplitChunkAt pos in
    let* '(chunk_ptr, it) := GetInsertionChunk it in
    let* it :=
      InsertKeyAndPreeditAt_loop fuel chunk_ptr key preedit it in
    gets (GetPosition kNullT12r it).

(** *** Vocabulary of the statements *)

(* [AddInput] on [c] takes a prefix of [key], which may be empty, and
   leaves the rest of [key] in it. *)
Definition takes_prefix (table : Table) (c : chunk) (key : string) : Prop :=
  exists taken : string,
    key = (taken ++ snd (CharChunk.AddInput c table key))%string.

(* Of the calls of [AddInput] that [InsertAt pos input] makes, the first,
   on the insertion chunk, leaves a suffix of [input], and the later ones,
   on fresh chunks, take some of what is left. *)
Definition feeds_consume (pos : N) (input : string)
    (comp : Composition.t T12r Table chunk) : Prop :=
  (forall c : chunk,
     insertion_chunk pos comp = Some c ->
     takes_prefix (table_ comp) c input)
  /\ (forall key : string,
        rest_of input key ->
        takes_some (table_ comp) (fresh_chunk comp) key).

End WithCharChunk.

End CompositionExt.

(** Modelled from the spec: [add_input_and_converted] on the chunk with a
    rule table; the chunk takes the whole of the raw and converted text it
    is given.  [char_chunk.h] is not among the sources. *)
#[global] Instance SpecChunk_preedit
    : CharChunkPreedit.Interface SpecChunk.Table SpecChunk.chunk := {
  CharChunkPreedit.AddInputAndConvertedChar := fun c _ key converted_char =>
    (SpecChunk.mk (SpecChunk.raw c ++ key)
       (SpecChunk.converted c ++ converted_char)
       (SpecChunk.pending c) (SpecChunk.rendering_override c),
     (EmptyString, EmptyString))
}.

(** * Properties of the composition buffer *)

Module CompositionFacts.

Import Composition.

(** ** Arithmetic of [size_t] *)

Lemma size_add_le_max a b : size_add a b <= SIZE_MAX.
Proof.
  unfold size_add.
  pose proof (N.mod_upper_bound (a + b) (SIZE_MAX + 1)) as Hlt.
  unfold SIZE_MAX in *. lia.
Qed.

Lemma size_add_exact a b : a + b <= SIZE_MAX -> size_add a b = a + b.
Proof.
  intros Hle. unfold size_add. apply N.mod_small. unfold SIZE_MAX in *. lia.
Qed.

Lemma size_add_mod_l a b : size_add (a mod (SIZE_MAX + 1)) b = size_add a b.
Proof. unfold size_add. apply N.Div0.add_mod_idemp_l. Qed.

Lemma size_wrap_le a : a mod (SIZE_MAX + 1) <= a.
Proof. apply N.Div0.mod_le. Qed.

(** ** Strings *)

Lemma length_append (s1 s2 : string) :
  String.length (s1 ++ s2)
  = (String.length s1 + String.length s2)%nat.
Proof. induction s1 as [|a s1 IH]; simpl; [reflexivity | now rewrite IH]. Qed.

Lemma append_assoc (s1 s2 s3 : string) :
  (s1 ++ s2 ++ s3 = (s1 ++ s2) ++ s3)%string.
Proof.
  induction s1 as [|a s1 IH]; [reflexivity|].
  change (String a (s1 ++ s2 ++ s3) = String a ((s1 ++ s2) ++ s3))%string.
  f_equal. exact IH.
Qed.

Section WithCharChunk.

Context {T12r Table chunk : Type}.
Context `{EqDecision T12r} `{!CharChunk.Interface T12r Table chunk}.

Implicit Types (comp : Composition.t T12r Table chunk).
Implicit Types (chunks rest : list chunk) (c : chunk).
Implicit Types (transliterator : option T12r).

(** ** Sums of chunk lengths *)

Lemma sum_lengths_app transliterator chunks1 chunks2 :
  sum_lengths transliterator (chunks1 ++ chunks2)
  = sum_lengths transliterator chunks1 + sum_lengths transliterator chunks2.
Proof.
  induction chunks1 as [|c chunks1 IH]; simpl; [reflexivity|].
  rewrite IH. lia.
Qed.

Lemma sum_lengths_take_le transliterator n chunks :
  sum_lengths transliterator (take n chunks)
  <= sum_lengths transliterator chunks.
Proof.
  rewrite <- (take_drop n chunks) at 2. rewrite sum_lengths_app. lia.
Qed.

Lemma sum_lengths_take_S transliterator n chunks c :
  chunks !! n = Some c ->
  sum_lengths transliterator (take (S n) chunks)
  = sum_lengths transliterator (take n chunks)
    + CharChunk.GetLength c transliterator.
Proof.
  intros Hc. rewrite (take_S_r _ _ _ Hc), sum_lengths_app. simpl. lia.
Qed.

Lemma foldl_size_add transliterator chunks acc :
  foldl (fun position c =>
           size_add position (CharChunk.GetLength c transliterator))
        (acc mod (SIZE_MAX + 1)) chunks
  = (acc + sum_lengths transliterator chunks) mod (SIZE_MAX + 1).
Proof.
  revert acc. induction chunks as [|c chunks IH]; intros acc;
    cbn [foldl sum_lengths foldr].
  - f_equal. lia.
  - rewrite size_add_mod_l.
    change (size_add acc (CharChunk.GetLength c transliterator))
      with ((acc + CharChunk.GetLength c transliterator)
            mod (SIZE_MAX + 1)).
    rewrite IH. f_equal. unfold sum_lengths. lia.
Qed.

(** [GetPosition] is the sum of the lengths in front of the iterator,
    reduced modulo [SIZE_MAX + 1]. *)
Lemma GetPosition_sum transliterator cur_it comp :
  GetPosition transliterator cur_it comp
  = sum_lengths transliterator (take cur_it (chunks_ comp))
    mod (SIZE_MAX + 1).
Proof.
  unfold GetPosition.
  change 0 with (0 mod (SIZE_MAX + 1)) at 1.
  rewrite foldl_size_add. f_equal.
Qed.

Lemma GetPosition_exact transliterator cur_it comp :
  sum_lengths transliterator (take cur_it (chunks_ comp)) <= SIZE_MAX ->
  GetPosition transliterator cur_it comp
  = sum_lengths transliterator (take cur_it (chunks_ comp)).
Proof.
  intros Hle. rewrite GetPosition_sum. apply N.mod_small.
  unfold SIZE_MAX in *. lia.
Qed.

Lemma GetLength_sum comp :
  GetLength comp
  = sum_lengths kNullT12r (chunks_ comp) mod (SIZE_MAX + 1).
Proof.
  unfold GetLength, end_. rewrite GetPosition_sum, firstn_all. reflexivity.
Qed.

(** ** The chunk lookup *)

Lemma last_lookup_pred chunks c0 :
  chunks <> [] ->
  chunks !! pred (length chunks) = Some (List.last chunks c0).
Proof.
  induction chunks as [|c [|c' chunks] IH]; intros Hne;
    [congruence | reflexivity |].
  specialize (IH ltac:(discriminate)). exact IH.
Qed.

(** What the loop of [GetChunkAt] returns when it stops at a chunk: the
    chunks in front of it and the inner position make up the position, the
    inner position is within the chunk, and it is 0 only for position 0. *)
Lemma GetChunkAt_loop_Some transliterator rest :
  forall rest_pos it k i,
    GetChunkAt_loop transliterator rest_pos it rest = Some (k, i) ->
    exists j c,
      k = (it + j)%nat /\ rest !! j = Some c
      /\ rest_pos = sum_lengths transliterator (take j rest) + i
      /\ i <= CharChunk.GetLength c transliterator
      /\ (0 < rest_pos -> 0 < i).
Proof.
  induction rest as [|c rest IH]; intros rest_pos it k i; simpl;
    [discriminate|].
  destruct (rest_pos <=? CharChunk.GetLength c transliterator) eqn:Hle.
  - intros [= <- <-]. apply N.leb_le in Hle.
    exists 0%nat, c. repeat split; simpl; auto with lia.
  - intros Hloop. apply N.leb_gt in Hle.
    destruct (IH _ _ _ _ Hloop) as (j & c' & -> & Hc' & Hsum & Hi & Hpos).
    exists (S j), c'. repeat split; simpl; auto with lia.
Qed.

(** The loop runs to the end only when the position is beyond the sum of
    the lengths. *)
Lemma GetChunkAt_loop_None_pos transliterator rest :
  forall rest_pos it,
    0 < rest_pos ->
    GetChunkAt_loop transliterator rest_pos it rest = None ->
    sum_lengths transliterator rest < rest_pos.
Proof.
  induction rest as [|c rest IH]; intros rest_pos it Hpos; simpl; [auto|].
  destruct (rest_pos <=? CharChunk.GetLength c transliterator) eqn:Hle;
    [discriminate|].
  apply N.leb_gt in Hle. intros Hloop.
  apply IH in Hloop; lia.
Qed.

Lemma GetChunkAt_loop_None transliterator c rest rest_pos it :
  GetChunkAt_loop transliterator rest_pos it (c :: rest) = None ->
  sum_lengths transliterator (c :: rest) < rest_pos.
Proof.
  destruct (N.eq_dec rest_pos 0) as [->|Hne].
  - cbn [GetChunkAt_loop].
    rewrite (proj2 (N.leb_le 0 _)) by lia. discriminate.
  - apply GetChunkAt_loop_None_pos. lia.
Qed.

(** The three outcomes of [GetChunkAt]: the empty buffer, a chunk the
    position falls into, and the last chunk for a position beyond the
    buffer. *)
Lemma GetChunkAt_cases position transliterator comp it i :
  GetChunkAt position transliterator comp = (it, i) ->
  (chunks_ comp = [] /\ it = 0%nat /\ i = 0)
  \/ (exists c,
        chunks_ comp !! it = Some c
        /\ i <= CharChunk.GetLength c transliterator
        /\ position
           = sum_lengths transliterator (take it (chunks_ comp)) + i
        /\ (0 < position -> 0 < i))
  \/ (exists c,
        chunks_ comp !! it = Some c
        /\ S it = length (chunks_ comp)
        /\ i = CharChunk.GetLength c transliterator
        /\ sum_lengths transliterator (chunks_ comp) < position).
Proof.
  unfold GetChunkAt, begin_, end_.
  destruct (chunks_ comp) as [|c0 rest] eqn:Hchunks.
  - intros [= <- <-]. left. auto.
  - destruct (GetChunkAt_loop transliterator position 0 (c0 :: rest))
      as [[k i']|] eqn:Hloop.
    + intros [= -> ->]. right. left.
      apply GetChunkAt_loop_Some in Hloop
        as (j & c & -> & Hc & Hsum & Hi & Hpos).
      exists c. auto.
    + intros [= <- <-]. right. right.
      exists (List.last (c0 :: rest) c0). repeat split.
      * exact (last_lookup_pred (c0 :: rest) c0 ltac:(discriminate)).
      * apply GetChunkAt_loop_None in Hloop. exact Hloop.
Qed.

(** A chunk is found on every buffer that has one. *)
Lemma GetChunkAt_lookup position transliterator comp it i :
  chunks_ comp <> [] ->
  GetChunkAt position transliterator comp = (it, i) ->
  exists c,
    chunks_ comp !! it = Some c
    /\ i <= CharChunk.GetLength c transliterator.
Proof.
  intros Hne Hget.
  destruct (GetChunkAt_cases _ _ _ _ _ Hget)
    as [(Hnil & _) | [(c & Hc & Hi & _) | (c & Hc & _ & Hi & _)]];
    [congruence | eauto | exists c; split; [auto | lia]].
Qed.

Lemma GetChunkAt_end position transliterator comp :
  fst (GetChunkAt position transliterator comp) = end_ comp <->
  chunks_ comp = [].
Proof.
  split.
  - intros Hend. destruct (chunks_ comp) as [|c0 rest] eqn:Hchunks; [auto|].
    destruct (GetChunkAt position transliterator comp) as [it i] eqn:Hget.
    destruct (GetChunkAt_lookup position transliterator comp it i)
      as (c & Hc & _); [congruence | auto |].
    apply lookup_lt_Some in Hc. simpl in Hend. unfold end_ in Hend. lia.
  - intros Hnil. unfold GetChunkAt, end_. rewrite Hnil. reflexivity.
Qed.


(** ** [ConvertPosition] *)

(** C9: with the same policy as source and as target, [ConvertPosition]
    returns the position it was given, whatever the buffer holds and
    however large the position is; no chunk is looked up and the buffer is
    left as it was. *)
Theorem ConvertPosition_same_policy position transliterator comp :
  ConvertPosition position transliterator transliterator comp
  = Ok (position, comp).
Proof.
  unfold ConvertPosition.
  destruct (decide (transliterator = transliterator)); [reflexivity|].
  congruence.
Qed.

(** C2, amended: for two different policies, when the lookup under the
    source policy ends on [chunks_.end()], [ConvertPosition] returns 0; it
    neither faults nor changes the buffer. *)
Theorem ConvertPosition_no_chunk position transliterator_from
    transliterator_to comp :
  transliterator_from <> transliterator_to ->
  fst (GetChunkAt position transliterator_from comp) = end_ comp ->
  ConvertPosition position transliterator_from transliterator_to comp
  = Ok (0, comp).
Proof.
  intros Hne Hend. unfold ConvertPosition.
  destruct (decide (transliterator_from = transliterator_to)); [congruence|].
  unfold bind, gets.
  destruct (GetChunkAt position transliterator_from comp) as [it i].
  simpl in Hend. destruct (decide (it = end_ comp)); [reflexivity|].
  congruence.
Qed.

(** The positions that fall inside a chunk: those that lie [i] units behind
    the start of a chunk of at least [i] units, where [i] is not 0 unless the
    chunk is the first (a position between two chunks belongs to the chunk
    it ends). *)
Lemma GetChunkAt_loop_intro transliterator rest :
  forall rest_pos it j i c,
    rest !! j = Some c ->
    rest_pos = sum_lengths transliterator (take j rest) + i ->
    i <= CharChunk.GetLength c transliterator ->
    j = 0%nat \/ 0 < i ->
    GetChunkAt_loop transliterator rest_pos it rest = Some ((it + j)%nat, i).
Proof.
  induction rest as [|c0 rest IH]; intros rest_pos it j i c Hc Hsum Hi Hfirst;
    [discriminate|].
  destruct j as [|j]; cbn [GetChunkAt_loop].
  - simpl in Hc, Hsum. injection Hc as ->.
    assert (rest_pos = i) as -> by lia.
    rewrite (proj2 (N.leb_le _ _) Hi). do 2 f_equal. lia.
  - simpl in Hc. cbn [take sum_lengths foldr] in Hsum.
    fold (sum_lengths transliterator (take j rest)) in Hsum.
    destruct Hfirst as [|Hpos]; [discriminate|].
    rewrite (proj2 (N.leb_gt _ _)) by lia.
    rewrite (IH _ (S it) j i c Hc); [do 2 f_equal; lia | lia | exact Hi |].
    right. exact Hpos.
Qed.

Lemma position_in_chunk_intro transliterator comp position it i c :
  chunks_ comp !! it = Some c ->
  position = sum_lengths transliterator (take it (chunks_ comp)) + i ->
  i <= CharChunk.GetLength c transliterator ->
  it = 0%nat \/ 0 < i ->
  position_in_chunk transliterator comp position it i.
Proof.
  intros Hc Hsum Hi Hfirst. pose proof (lookup_lt_Some _ _ _ Hc) as Hlt.
  split; [|split; [exact Hlt | exact Hsum]].
  unfold GetChunkAt, begin_.
  destruct (chunks_ comp) as [|c0 rest] eqn:Hchunks; [discriminate|].
  rewrite (GetChunkAt_loop_intro transliterator (c0 :: rest) position 0
             it i c Hc Hsum Hi Hfirst).
  reflexivity.
Qed.

(** A position inside a chunk is at most that chunk's length away from the
    chunk's start. *)
Lemma position_in_chunk_inner transliterator comp position it i c :
  position_in_chunk transliterator comp position it i ->
  chunks_ comp !! it = Some c ->
  i <= CharChunk.GetLength c transliterator.
Proof.
  intros (Hget & Hlt & Hsum) Hc.
  destruct (GetChunkAt_lookup position transliterator comp it i)
    as (c' & Hc' & Hi); [|auto|congruence].
  intros Hnil. rewrite Hnil in Hc. discriminate.
Qed.

(** C1: when [position_from] falls inside the chunk at [it], [i] units
    after its start under the source policy, [ConvertPosition] returns, in
    this order of precedence: the position of the chunk under the target
    policy if [i] is 0; that position plus the chunk's target length if [i]
    is the chunk's source length; the same, the end of the chunk, if [i]
    exceeds the chunk's target length; and that position plus [i]
    otherwise.  The position of the chunk is [GetPosition], the sum of the
    target lengths of the chunks in front of it. *)
Theorem ConvertPosition_in_chunk position_from transliterator_from
    transliterator_to comp it i c :
  position_from <= SIZE_MAX ->
  position_in_chunk transliterator_from comp position_from it i ->
  chunks_ comp !! it = Some c ->
  let position_to := GetPosition transliterator_to it comp in
  let chunk_length_from := CharChunk.GetLength c transliterator_from in
  let chunk_length_to := CharChunk.GetLength c transliterator_to in
  ConvertPosition position_from transliterator_from transliterator_to comp
  = Ok (if i =? 0 then position_to
        else if i =? chunk_length_from
        then size_add position_to chunk_length_to
        else if chunk_length_to <? i
        then size_add position_to chunk_length_to
        else size_add position_to i,
        comp).
Proof.
  intros Hmax Hin Hc position_to chunk_length_from chunk_length_to.
  pose proof (position_in_chunk_inner _ _ _ _ _ _ Hin Hc) as Hi.
  destruct Hin as (Hget & Hlt & Hsum).
  unfold ConvertPosition.
  destruct (decide (transliterator_from = transliterator_to)) as [<-|Hne].
  - (* the shortcut of the source agrees with the four cases *)
    assert (position_to
            = sum_lengths transliterator_from (take it (chunks_ comp)))
      as Hto by (apply GetPosition_exact; lia).
    unfold ret. do 2 f_equal.
    destruct (N.eqb_spec i 0) as [->|Hi0]; [lia|].
    destruct (N.eqb_spec i chunk_length_from) as [Hfull|Hpart].
    + rewrite size_add_exact; subst chunk_length_to chunk_length_from; lia.
    + destruct (N.ltb_spec chunk_length_to i) as [Hgt|_];
        [subst chunk_length_to chunk_length_from; lia|].
      rewrite size_add_exact; lia.
  - unfold bind, gets, deref, raise, ret. rewrite Hget.
    destruct (decide (it = end_ comp)) as [->|_]; [lia|].
    subst position_to chunk_length_from chunk_length_to.
    rewrite Hc, (proj2 (N.leb_le _ _) Hi). cbn [negb].
    destruct (i =? 0); [reflexivity|]. rewrite Hc.
    destruct (i =? CharChunk.GetLength c transliterator_from);
      [reflexivity|].
    destruct (CharChunk.GetLength c transliterator_to <? i); reflexivity.
Qed.

(** ** [InsertAt] with nothing to insert *)

(** C5: [InsertAt] with the empty string returns the position it was
    given and leaves the buffer as it was: no chunk is created, split or
    written to. *)
Theorem InsertAt_empty_input fuel pos comp :
  InsertAt fuel pos EmptyString comp = Ok (pos, comp).
Proof.
  unfold InsertAt.
  destruct (decide (EmptyString = EmptyString)); [reflexivity|].
  congruence.
Qed.

(** ** [SetTransliterator] on a reversed range *)

(** C6: when [position_from] is greater than [position_to],
    [SetTransliterator] logs one error line and returns; the chunk
    sequence and every chunk in it, its transliterator included, are as
    before, and the call does not fault. *)
Theorem SetTransliterator_reversed_range position_from position_to
    transliterator comp :
  position_to < position_from ->
  SetTransliterator position_from position_to transliterator comp
  = Ok ([(ERROR,
          "position_from should not be greater than position_to."%string)],
        comp).
Proof.
  intros Hlt. unfold SetTransliterator.
  rewrite (proj2 (N.ltb_lt position_to position_from) Hlt). reflexivity.
Qed.

(** ** Rendering the empty buffer *)

(** C7: on the empty buffer [GetStringWithModes] returns the empty string,
    for every policy, every trim mode and whatever the output string held
    before, and logs one warning; so does [GetString].  Both are [const]:
    the buffer is not an output of theirs. *)
Theorem GetStringWithModes_empty transliterator trim_mode composition
    input_t12r table :
  let comp := Composition.mk [] input_t12r table in
  GetStringWithModes transliterator trim_mode composition comp
  = (EmptyString, [(WARNING, "The composition size is zero."%string)])
  /\ GetString composition comp
     = (EmptyString, [(WARNING, "The composition size is zero."%string)]).
Proof. split; reflexivity. Qed.

(** ** [MaybeSplitChunkAt] *)

Lemma insert_before_insert chunks j c c' left_chunk :
  chunks !! j = Some c ->
  insert_before j left_chunk (<[j := c']> chunks)
  = take j chunks ++ left_chunk :: c' :: drop (S j) chunks.
Proof.
  intros Hc. pose proof (lookup_lt_Some _ _ _ Hc) as Hlt.
  assert (j = length (take j chunks)) as Hlen
    by (rewrite length_take; lia).
  unfold insert_before. rewrite insert_take_drop by exact Hlt.
  rewrite take_app_length', drop_app_length' by exact Hlen. reflexivity.
Qed.

Lemma GetLength_nil input_t12r table :
  GetLength (Composition.mk [] input_t12r table) = 0.
Proof. reflexivity. Qed.

(** The three ways [MaybeSplitChunkAt] returns: at position 0 with
    [begin()]; behind the chunk the position ends; and, for a position
    strictly inside a chunk, behind the new left part, in front of what is
    left of the chunk.  It dereferences no [end()] unless the buffer is
    empty and the position is not 0. *)
Lemma MaybeSplitChunkAt_cases pos comp :
  pos = 0 \/ chunks_ comp <> [] ->
  (pos = 0 /\ MaybeSplitChunkAt pos comp = Ok ((None, begin_), comp))
  \/ (exists j i c,
        0 < pos
        /\ GetChunkAt pos kNullT12r comp = (j, i)
        /\ chunks_ comp !! j = Some c
        /\ ((i = CharChunk.GetLength c kNullT12r
             /\ MaybeSplitChunkAt pos comp = Ok ((Some j, S j), comp))
            \/ (0 < i < CharChunk.GetLength c kNullT12r
                /\ MaybeSplitChunkAt pos comp
                   = Ok ((Some j, S j),
                         with_chunks comp
                           (take j (chunks_ comp)
                            ++ snd (CharChunk.SplitChunk c kNullT12r i
                                      CharChunk.new)
                            :: fst (CharChunk.SplitChunk c kNullT12r i
                                      CharChunk.new)
                            :: drop (S j) (chunks_ comp)))))).
Proof.
  intros Hok. unfold MaybeSplitChunkAt.
  destruct (N.leb_spec pos 0) as [Hle|Hpos].
  - left. split; [lia | reflexivity].
  - right. destruct Hok as [->|Hne]; [lia|].
    destruct (GetChunkAt pos kNullT12r comp) as [j i] eqn:Hget.
    destruct (GetChunkAt_lookup _ _ _ _ _ Hne Hget) as (c & Hc & Hi).
    exists j, i, c. repeat split; [exact Hpos | exact Hc |].
    unfold bind, gets, deref, ret, set_chunks. rewrite Hget, Hc.
    destruct (N.eqb_spec i (CharChunk.GetLength c kNullT12r)) as [Heq|Hneq].
    + left. auto.
    + right. split.
      * destruct (GetChunkAt_cases _ _ _ _ _ Hget)
          as [(Hnil & _) | [(c1 & Hc1 & _ & _ & Hi0)
                           | (c1 & Hc1 & _ & Hfull & _)]];
          [congruence | lia | congruence].
      * destruct (CharChunk.SplitChunk c kNullT12r i CharChunk.new)
          as [c' left_chunk].
        cbn [fst snd]. erewrite insert_before_insert by exact Hc.
        reflexivity.
Qed.

Lemma lookup_after_split chunks j (a b : chunk) rest :
  (j < length chunks)%nat ->
  (take j chunks ++ a :: b :: rest) !! S j = Some b.
Proof.
  intros Hlt.
  assert (length (take j chunks) = j) as Hlen
    by (rewrite length_take; lia).
  rewrite lookup_app_r by lia. rewrite Hlen.
  replace (S j - j)%nat with 1%nat by lia. reflexivity.
Qed.

(** ** [DeleteAt] *)

Lemma DeleteAt_at_end position comp left it comp' :
  MaybeSplitChunkAt position comp = Ok ((left, it), comp') ->
  it = end_ comp' ->
  DeleteAt position comp = Ok (GetPosition kNullT12r it comp', comp').
Proof.
  intros Hsplit Hend. unfold DeleteAt, bind, gets. rewrite Hsplit.
  destruct (decide (it = end_ comp')); [reflexivity | contradiction].
Qed.

Lemma DeleteAt_at_chunk position comp left it comp' c :
  MaybeSplitChunkAt position comp = Ok ((left, it), comp') ->
  chunks_ comp' !! it = Some c ->
  DeleteAt position comp
  = Ok (GetPosition kNullT12r it comp',
        with_chunks comp'
          (if CharChunk.GetLength c kNullT12r =? 1
           then delete it (chunks_ comp')
           else <[it := fst (CharChunk.SplitChunk c kNullT12r 1
                               CharChunk.new)]> (chunks_ comp'))).
Proof.
  intros Hsplit Hc. pose proof (lookup_lt_Some _ _ _ Hc) as Hlt.
  unfold DeleteAt, bind, gets, deref, update, set_chunks, ret.
  rewrite Hsplit.
  destruct (decide (it = end_ comp')) as [Hend|_];
    [unfold end_ in Hend; lia|].
  rewrite Hc.
  destruct (CharChunk.GetLength c kNullT12r =? 1); [reflexivity|].
  rewrite Hc. reflexivity.
Qed.

(** C3: [DeleteAt] at the length of the buffer, when no chunk begins at
    that point, returns the length and leaves the buffer, the chunk
    sequence and every chunk in it, as it was. *)
Theorem DeleteAt_at_length comp :
  chunk_at (GetLength comp) comp = None ->
  DeleteAt (GetLength comp) comp = Ok (GetLength comp, comp).
Proof.
  intros Hnone.
  assert (GetLength comp = 0 \/ chunks_ comp <> []) as Hok.
  { destruct comp as [[|c0 rest] input_t12r table];
      [left; reflexivity | right; discriminate]. }
  unfold chunk_at in Hnone.
  destruct (MaybeSplitChunkAt_cases _ _ Hok)
    as [(Hzero & Hsplit)
       | (j & i & c & Hpos & Hget & Hc & [(Hi & Hsplit) | (Hi & Hsplit)])];
    rewrite Hsplit in Hnone.
  - erewrite DeleteAt_at_end; [|exact Hsplit|].
    + rewrite Hzero. reflexivity.
    + unfold begin_, end_ in *. destruct (chunks_ comp); [reflexivity|].
      discriminate.
  - apply lookup_ge_None in Hnone. apply lookup_lt_Some in Hc.
    assert (S j = end_ comp) as Hend by (unfold end_; lia).
    erewrite DeleteAt_at_end; [|exact Hsplit|exact Hend].
    rewrite Hend. reflexivity.
  - apply lookup_lt_Some in Hc. cbn [with_chunks chunks_] in Hnone.
    rewrite lookup_after_split in Hnone by exact Hc. discriminate.
Qed.

Lemma sum_lengths_lookup_le transliterator chunks k c :
  chunks !! k = Some c ->
  sum_lengths transliterator (take k chunks)
  + CharChunk.GetLength c transliterator
  <= sum_lengths transliterator chunks.
Proof.
  intros Hc. rewrite <- (sum_lengths_take_S _ _ _ _ Hc).
  apply sum_lengths_take_le.
Qed.

Lemma sum_lengths_drop_lookup_le transliterator chunks n k c :
  (n <= k)%nat ->
  chunks !! k = Some c ->
  sum_lengths transliterator (take n chunks)
  + CharChunk.GetLength c transliterator
  <= sum_lengths transliterator chunks.
Proof.
  intros Hle Hc.
  pose proof (sum_lengths_lookup_le transliterator chunks k c Hc).
  assert (sum_lengths transliterator (take n chunks)
          <= sum_lengths transliterator (take k chunks)); [|lia].
  replace (take n chunks) with (take n (take k chunks))
    by (rewrite take_take; f_equal; lia).
  apply sum_lengths_take_le.
Qed.

(** No chunk begins at the length of a buffer whose lengths add up within
    [size_t] and whose last chunk, if there is one, is not empty under the
    default view. *)
Lemma chunk_at_length comp :
  sum_lengths kNullT12r (chunks_ comp) <= SIZE_MAX ->
  (forall c, last (chunks_ comp) = Some c ->
             CharChunk.GetLength c kNullT12r <> 0) ->
  chunk_at (GetLength comp) comp = None.
Proof.
  intros Hmax Hlast.
  assert (GetLength comp = sum_lengths kNullT12r (chunks_ comp)) as Hlen.
  { unfold GetLength, end_. rewrite GetPosition_exact; rewrite firstn_all;
      [reflexivity | exact Hmax]. }
  assert (GetLength comp = 0 \/ chunks_ comp <> []) as Hok.
  { destruct comp as [[|c0 rest] input_t12r table];
      [left; reflexivity | right; discriminate]. }
  rewrite last_lookup in Hlast.
  unfold chunk_at.
  destruct (MaybeSplitChunkAt_cases _ _ Hok)
    as [(Hzero & Hsplit)
       | (j & i & c & Hpos & Hget & Hc & [(Hi & Hsplit) | (Hi & Hsplit)])];
    rewrite Hsplit.
  - destruct (chunks_ comp) as [|c0 rest] eqn:Hchunks; [reflexivity|].
    exfalso.
    pose proof (Hlast _ (last_lookup_pred (c0 :: rest) c0
                           ltac:(discriminate))) as Hne.
    pose proof (sum_lengths_lookup_le kNullT12r _ _ _
                  (last_lookup_pred (c0 :: rest) c0 ltac:(discriminate))).
    lia.
  - destruct (chunks_ comp !! S j) as [c'|] eqn:Hnext; [|reflexivity].
    exfalso.
    destruct (GetChunkAt_cases _ _ _ _ _ Hget)
      as [(Hnil & _) | [(c1 & Hc1 & _ & Hpos_eq & _)
                       | (c1 & _ & Hend & _ & _)]];
      [rewrite Hnil in Hc; discriminate |
      | apply lookup_lt_Some in Hnext; lia].
    assert (c1 = c) as -> by congruence.
    destruct (chunks_ comp !! pred (length (chunks_ comp)))
      as [cl|] eqn:Hcl.
    + pose proof (Hlast _ eq_refl) as Hne.
      apply lookup_lt_Some in Hnext.
      assert (S j <= pred (length (chunks_ comp)))%nat as Hj by lia.
      pose proof (sum_lengths_drop_lookup_le kNullT12r _ _ _ _ Hj Hcl)
        as Hle.
      rewrite (sum_lengths_take_S _ _ _ _ Hc) in Hle. lia.
    + apply lookup_ge_None in Hcl. apply lookup_lt_Some in Hnext. lia.
  - exfalso.
    destruct (GetChunkAt_cases _ _ _ _ _ Hget)
      as [(Hnil & _) | [(c1 & Hc1 & _ & Hpos_eq & _)
                       | (c1 & Hc1 & _ & Hfull & _)]];
      [rewrite Hnil in Hc; discriminate |
      | assert (c1 = c) by congruence; subst; lia].
    assert (c1 = c) as -> by congruence.
    pose proof (sum_lengths_lookup_le kNullT12r _ _ _ Hc). lia.
Qed.

(** ** [SetTransliterator] and [GetTransliterator] *)

(** C10, at the input where it fails: on the empty buffer the lookup
    returns [chunks_.end()], and both [SetTransliterator], for every range
    with [position_from <= position_to], and [GetTransliterator]
    dereference it. *)
Theorem SetTransliterator_empty_buffer position_from position_to
    transliterator input_t12r table :
  position_from <= position_to ->
  let comp := Composition.mk [] input_t12r table in
  SetTransliterator position_from position_to transliterator comp
  = Fault DerefEnd
  /\ GetTransliterator position_from comp = Fault DerefEnd.
Proof.
  intros Hle comp. split; [|reflexivity].
  unfold SetTransliterator.
  rewrite (proj2 (N.ltb_ge position_to position_from) Hle). reflexivity.
Qed.

(** The lookup is monotone in the position. *)
Lemma GetChunkAt_loop_mono transliterator rest :
  forall p q it,
    p <= q ->
    match GetChunkAt_loop transliterator p it rest,
          GetChunkAt_loop transliterator q it rest with
    | Some (k1, _), Some (k2, _) => (k1 <= k2)%nat
    | Some (k1, _), None => (k1 < it + length rest)%nat
    | None, Some _ => False
    | None, None => True
    end.
Proof.
  induction rest as [|c rest IH]; intros p q it Hpq; simpl; [exact I|].
  destruct (N.leb_spec q (CharChunk.GetLength c transliterator)) as [Hq|Hq].
  - rewrite (proj2 (N.leb_le p _)) by lia. lia.
  - destruct (N.leb_spec p (CharChunk.GetLength c transliterator))
      as [Hp|Hp].
    + destruct (GetChunkAt_loop transliterator
                  (q - CharChunk.GetLength c transliterator) (S it) rest)
        as [[k2 i2]|] eqn:Hloop; [|lia].
      apply GetChunkAt_loop_Some in Hloop as (j & _ & -> & _). lia.
    + specialize (IH (p - CharChunk.GetLength c transliterator)
                     (q - CharChunk.GetLength c transliterator) (S it)
                     ltac:(lia)).
      destruct (GetChunkAt_loop transliterator
                  (p - CharChunk.GetLength c transliterator) (S it) rest)
        as [[k1 i1]|];
        destruct (GetChunkAt_loop transliterator
                    (q - CharChunk.GetLength c transliterator) (S it) rest)
          as [[k2 i2]|]; auto with lia.
Qed.

Lemma GetChunkAt_mono transliterator comp p q :
  p <= q ->
  (fst (GetChunkAt p transliterator comp)
   <= fst (GetChunkAt q transliterator comp))%nat.
Proof.
  intros Hpq. unfold GetChunkAt, begin_, end_.
  destruct (chunks_ comp) as [|c0 rest]; [reflexivity|].
  pose proof (GetChunkAt_loop_mono transliterator (c0 :: rest) p q 0 Hpq)
    as Hmono.
  destruct (GetChunkAt_loop transliterator p 0 (c0 :: rest))
    as [[k1 i1]|];
    destruct (GetChunkAt_loop transliterator q 0 (c0 :: rest))
      as [[k2 i2]|]; simpl in *; lia.
Qed.

(** The loop of [SetTransliterator] from an iterator to one that is not in
    front of it dereferences existing chunks only and stops; it keeps the
    number of chunks. *)
Lemma SetTransliterator_loop_ok transliterator end_it :
  forall fuel chunk_it comp,
    (chunk_it <= end_it)%nat ->
    (end_it <= end_ comp)%nat ->
    (end_it - chunk_it <= fuel)%nat ->
    exists chunks,
      SetTransliterator_loop fuel transliterator chunk_it end_it comp
      = Ok (tt, with_chunks comp chunks)
      /\ length chunks = length (chunks_ comp).
Proof.
  induction fuel as [|fuel IH]; intros chunk_it comp Hle Hend Hfuel.
  - exists (chunks_ comp). simpl.
    destruct (decide (chunk_it = end_it)); [|lia].
    destruct comp. auto.
  - cbn [SetTransliterator_loop].
    destruct (decide (chunk_it = end_it)) as [_|Hne].
    { exists (chunks_ comp). destruct comp. auto. }
    unfold end_ in Hend.
    destruct (lookup_lt_is_Some_2 (chunks_ comp) chunk_it ltac:(lia))
      as [c Hc].
    unfold bind, update. rewrite Hc.
    destruct (IH (S chunk_it)
                (with_chunks comp
                   (<[chunk_it := CharChunk.SetTransliterator c
                                    transliterator]> (chunks_ comp))))
      as (chunks & Hloop & Hlen);
      [lia | unfold end_; cbn; rewrite length_insert; lia | lia |].
    exists chunks. rewrite Hloop. split; [reflexivity|].
    rewrite Hlen. cbn. apply length_insert.
Qed.

(** On a buffer that is not empty, [SetTransliterator] over a range with
    [position_from <= position_to] and [GetTransliterator] dereference
    existing chunks only. *)
Lemma SetTransliterator_nonempty position_from position_to transliterator
    comp :
  chunks_ comp <> [] ->
  position_from <= position_to ->
  exists chunks,
    SetTransliterator position_from position_to transliterator comp
    = Ok ([], with_chunks comp chunks)
    /\ length chunks = length (chunks_ comp).
Proof.
  intros Hne Hle. unfold SetTransliterator.
  rewrite (proj2 (N.ltb_ge position_to position_from) Hle).
  pose proof (GetChunkAt_mono kNullT12r comp _ _ Hle) as Hmono.
  destruct (GetChunkAt position_from kNullT12r comp) as [chunk_it i1]
    eqn:Hfrom.
  destruct (GetChunkAt position_to kNullT12r comp) as [end_it i2] eqn:Hto.
  destruct (GetChunkAt_lookup _ _ _ _ _ Hne Hto) as (c & Hc & _).
  apply lookup_lt_Some in Hc. simpl in Hmono.
  destruct (SetTransliterator_loop_ok transliterator end_it
              (S (end_ comp)) chunk_it comp)
    as (chunks & Hloop & Hlen);
    [lia | unfold end_; lia | unfold end_; lia |].
  unfold bind, gets, update, ret. rewrite Hfrom. cbn beta iota.
  rewrite Hto. cbn beta iota. rewrite Hloop.
  cbn [with_chunks chunks_].
  destruct (lookup_lt_is_Some_2 chunks end_it ltac:(lia)) as [c' Hc'].
  rewrite Hc'. eexists. split; [reflexivity|].
  rewrite length_insert. exact Hlen.
Qed.

Lemma GetTransliterator_nonempty position comp :
  chunks_ comp <> [] ->
  exists c,
    c ∈ chunks_ comp
    /\ GetTransliterator position comp
       = Ok (CharChunk.GetTransliterator c kNullT12r, comp).
Proof.
  intros Hne. unfold GetTransliterator, bind, gets, deref, ret.
  destruct (GetChunkAt position kNullT12r comp) as [chunk_it i] eqn:Hget.
  destruct (GetChunkAt_lookup _ _ _ _ _ Hne Hget) as (c & Hc & _).
  exists c. rewrite Hc. split; [|reflexivity].
  apply list_elem_of_lookup. eauto.
Qed.

(** ** [InsertAt] *)

Lemma with_chunks_id comp : with_chunks comp (chunks_ comp) = comp.
Proof. destruct comp. reflexivity. Qed.

Lemma sum_lengths_insert_before transliterator it c chunks :
  sum_lengths transliterator (insert_before it c chunks)
  = sum_lengths transliterator chunks + CharChunk.GetLength c transliterator.
Proof.
  unfold insert_before. rewrite <- (take_drop it chunks) at 3.
  rewrite !sum_lengths_app. simpl. lia.
Qed.

Lemma length_insert_before it c chunks :
  length (insert_before it c chunks) = S (length chunks).
Proof.
  unfold insert_before. rewrite <- (take_drop it chunks) at 3.
  rewrite !length_app. simpl. lia.
Qed.

Lemma sum_lengths_insert transliterator k c c' chunks :
  chunks !! k = Some c ->
  sum_lengths transliterator (<[k := c']> chunks)
  + CharChunk.GetLength c transliterator
  = sum_lengths transliterator chunks + CharChunk.GetLength c' transliterator.
Proof.
  intros Hc. pose proof (lookup_lt_Some _ _ _ Hc) as Hlt.
  rewrite insert_take_drop by exact Hlt.
  rewrite <- (take_drop_middle _ _ _ Hc) at 3.
  rewrite !sum_lengths_app. simpl. lia.
Qed.

(** When the split it makes is exact, [MaybeSplitChunkAt] keeps the sum of
    the default lengths, and its iterator is one of the new sequence. *)
Lemma MaybeSplitChunkAt_sum pos comp :
  split_at_exact pos comp ->
  pos = 0 \/ chunks_ comp <> [] ->
  exists left it chunks,
    MaybeSplitChunkAt pos comp = Ok ((left, it), with_chunks comp chunks)
    /\ (it <= length chunks)%nat
    /\ sum_lengths kNullT12r chunks
       = sum_lengths kNullT12r (chunks_ comp).
Proof.
  intros Hexact Hok.
  destruct (MaybeSplitChunkAt_cases _ _ Hok)
    as [(Hzero & Hsplit)
       | (j & i & c & Hpos & Hget & Hc & [(Hi & Hsplit) | (Hi & Hsplit)])];
    rewrite Hsplit.
  - exists None, begin_, (chunks_ comp). rewrite with_chunks_id.
    unfold begin_. auto with lia.
  - exists (Some j), (S j), (chunks_ comp). rewrite with_chunks_id.
    apply lookup_lt_Some in Hc. auto with lia.
  - eexists (Some j), (S j), _. split; [reflexivity|].
    pose proof (lookup_lt_Some _ _ _ Hc) as Hlt.
    pose proof (Hexact j i c Hget Hc Hi) as Hlaw.
    unfold split_exact in Hlaw. cbv zeta in Hlaw.
    destruct Hlaw as [Hunits Hlaw].
    split.
    + rewrite length_app, length_take. simpl. lia.
    + rewrite <- (take_drop_middle _ _ _ Hc) at 3.
      rewrite !sum_lengths_app. simpl. lia.
Qed.

Lemma InsertChunk_eq it comp :
  InsertChunk it comp
  = Ok ((it, S it),
        with_chunks comp
          (insert_before it
             (CharChunk.SetTransliterator CharChunk.new (input_t12r_ comp))
             (chunks_ comp))).
Proof. reflexivity. Qed.

Lemma lookup_insert_before it (c : chunk) chunks :
  (it <= length chunks)%nat ->
  insert_before it c chunks !! it = Some c.
Proof.
  intros Hit. unfold insert_before.
  rewrite lookup_app_r by (rewrite length_take; lia).
  rewrite length_take.
  replace (it - it `min` length chunks)%nat with 0%nat by lia.
  reflexivity.
Qed.

(** [GetInsertionChunk] hands out a chunk of the sequence, and does not
    lower the sum of the default lengths. *)
Lemma GetInsertionChunk_sum it comp :
  (it <= length (chunks_ comp))%nat ->
  exists ptr it' chunks c,
    GetInsertionChunk it comp = Ok ((ptr, it'), with_chunks comp chunks)
    /\ chunks !! ptr = Some c
    /\ (it' <= length chunks)%nat
    /\ sum_lengths kNullT12r (chunks_ comp)
       <= sum_lengths kNullT12r chunks.
Proof.
  intros Hit.
  assert (exists chunks c,
             InsertChunk it comp = Ok ((it, S it), with_chunks comp chunks)
             /\ chunks !! it = Some c
             /\ (S it <= length chunks)%nat
             /\ sum_lengths kNullT12r (chunks_ comp)
                <= sum_lengths kNullT12r chunks) as Hnew.
  { eexists _, _. split; [apply InsertChunk_eq|].
    split; [apply lookup_insert_before; exact Hit|].
    rewrite length_insert_before, sum_lengths_insert_before. lia. }
  unfold GetInsertionChunk.
  destruct (decide (it = begin_)) as [_|Hne].
  { destruct Hnew as (chunks & c & Hnew). exists it, (S it), chunks, c.
    exact Hnew. }
  unfold begin_ in Hne.
  destruct (lookup_lt_is_Some_2 (chunks_ comp) (pred it) ltac:(lia))
    as [left Hleft].
  unfold bind, deref, gets, ret. rewrite Hleft.
  destruct (CharChunk.IsAppendable left (input_t12r_ comp)).
  - exists (pred it), it, (chunks_ comp), left. rewrite with_chunks_id.
    repeat split; [exact Hleft | exact Hit | lia].
  - destruct Hnew as (chunks & c & Hnew). exists it, (S it), chunks, c.
    exact Hnew.
Qed.

Lemma takes_some_shorter table c key :
  takes_some table c key ->
  (String.length (snd (CharChunk.AddInput c table key))
   < String.length key)%nat.
Proof.
  intros (taken & Htaken & Hkey).
  rewrite Hkey at 2. rewrite length_append.
  destruct taken; [congruence | simpl; lia].
Qed.

Lemma rest_of_step table c input key :
  rest_of input key ->
  takes_some table c key ->
  snd (CharChunk.AddInput c table key) <> EmptyString ->
  rest_of input (snd (CharChunk.AddInput c table key)).
Proof.
  intros (_ & taken & ->) (taken' & _ & Hkey) Hrest.
  split; [exact Hrest|].
  exists (taken ++ taken')%string. rewrite Hkey at 1.
  apply append_assoc.
Qed.

Lemma rest_of_refl input : input <> EmptyString -> rest_of input input.
Proof. intros Hne. split; [exact Hne|]. exists EmptyString. reflexivity. Qed.

(** When every call of [AddInput] takes some of the key and lengthens its
    chunk, the loop of [InsertAt] ends within as many iterations as the key
    has characters, and the sum of the default lengths is greater
    afterwards. *)
Lemma InsertAt_loop_grows comp input :
  (forall key,
     rest_of input key ->
     takes_some (table_ comp) (fresh_chunk comp) key
     /\ lengthens (table_ comp) (fresh_chunk comp) key) ->
  forall fuel key ptr it chunks c,
    rest_of input key ->
    chunks !! ptr = Some c ->
    takes_some (table_ comp) c key ->
    lengthens (table_ comp) c key ->
    (String.length key <= fuel)%nat ->
    (it <= length chunks)%nat ->
    exists it' chunks',
      InsertAt_loop fuel ptr key it (with_chunks comp chunks)
      = Ok (it', with_chunks comp chunks')
      /\ sum_lengths kNullT12r chunks < sum_lengths kNullT12r chunks'.
Proof.
  intros Hfresh.
  induction fuel as [|fuel IH]; intros key ptr it chunks c Hrest Hc Htakes
    Hlonger Hfuel Hit.
  - destruct Hrest as [Hkey _].
    destruct key; [congruence | simpl in Hfuel; lia].
  - pose proof (takes_some_shorter _ _ _ Htakes) as Hshorter.
    pose proof (rest_of_step _ _ _ _ Hrest Htakes) as Hnext.
    unfold lengthens in Hlonger.
    cbn [InsertAt_loop]. unfold bind, deref, gets, update, ret.
    cbn [with_chunks chunks_ table_ input_t12r_]. rewrite Hc.
    change (table_ (with_chunks comp chunks)) with (table_ comp).
    destruct (CharChunk.AddInput c (table_ comp) key) as [c' key'].
    cbn [fst snd] in Hlonger, Hshorter, Hnext.
    cbn [with_chunks chunks_ table_ input_t12r_]. rewrite Hc.
    cbn [with_chunks chunks_ table_ input_t12r_].
    pose proof (sum_lengths_insert kNullT12r ptr c c' chunks Hc) as Hsum.
    destruct (decide (key' = EmptyString)) as [_|Hkey'].
    + eexists it, _. split; [reflexivity | lia].
    + rewrite InsertChunk_eq.
      cbn [with_chunks chunks_ table_ input_t12r_].
      change (CharChunk.SetTransliterator CharChunk.new (input_t12r_ comp))
        with (fresh_chunk comp).
      destruct (Hfresh key' (Hnext Hkey')) as [Htakes' Hlonger'].
      destruct (IH key' it (S it)
                  (insert_before it (fresh_chunk comp) (<[ptr := c']> chunks))
                  (fresh_chunk comp))
        as (it' & chunks' & Hloop & Hgrow);
        [exact (Hnext Hkey')
        | apply lookup_insert_before; rewrite length_insert; exact Hit
        | exact Htakes' | exact Hlonger' | lia
        | rewrite length_insert_before, length_insert; lia |].
      exists it', chunks'. split; [exact Hloop|].
      rewrite sum_lengths_insert_before in Hgrow.
      unfold lengthens in Hlonger'. lia.
Qed.


(** ** [DeleteAt] under the contracts of [SplitChunk] *)

(** When the split it makes is exact, [MaybeSplitChunkAt] at a position
    within the buffer makes a boundary exactly there: the chunks in front of
    the iterator add up to the position, and the sum of all lengths is
    kept. *)
Lemma MaybeSplitChunkAt_exact position comp :
  split_at_exact position comp ->
  position <= sum_lengths kNullT12r (chunks_ comp) ->
  exists left it chunks,
    MaybeSplitChunkAt position comp = Ok ((left, it), with_chunks comp chunks)
    /\ sum_lengths kNullT12r chunks = sum_lengths kNullT12r (chunks_ comp)
    /\ sum_lengths kNullT12r (take it chunks) = position.
Proof.
  intros Hexact Hle.
  assert (position = 0 \/ chunks_ comp <> []) as Hok.
  { destruct (chunks_ comp); [left; simpl in Hle; lia | right; discriminate]. }
  destruct (MaybeSplitChunkAt_cases _ _ Hok)
    as [(Hzero & Hsplit)
       | (j & i & c & Hpos & Hget & Hc & Hcase)].
  { exists None, begin_, (chunks_ comp). rewrite with_chunks_id.
    unfold begin_. rewrite Hzero. auto. }
  assert (position = sum_lengths kNullT12r (take j (chunks_ comp)) + i)
    as Hposition.
  { destruct (GetChunkAt_cases _ _ _ _ _ Hget)
      as [(Hnil & _) | [(c1 & _ & _ & Hpos_eq & _)
                       | (c1 & _ & _ & _ & Hbeyond)]];
      [rewrite Hnil in Hc; discriminate | exact Hpos_eq | lia]. }
  pose proof (lookup_lt_Some _ _ _ Hc) as Hlt.
  destruct Hcase as [(Hi & Hsplit) | (Hi & Hsplit)]; rewrite Hsplit.
  - exists (Some j), (S j), (chunks_ comp). rewrite with_chunks_id.
    rewrite (sum_lengths_take_S _ _ _ _ Hc). repeat split. lia.
  - eexists (Some j), (S j), _. split; [reflexivity|].
    pose proof (Hexact j i c Hget Hc Hi) as Hlaw.
    unfold split_exact in Hlaw. cbv zeta in Hlaw.
    destruct Hlaw as [Hunits Hlaw].
    split.
    + rewrite <- (take_drop_middle _ _ _ Hc) at 3.
      rewrite !sum_lengths_app. simpl. lia.
    + rewrite (take_S_r _ j
                 (snd (CharChunk.SplitChunk c kNullT12r i CharChunk.new))).
      * rewrite take_app_length' by (rewrite length_take; lia).
        rewrite sum_lengths_app. simpl. lia.
      * rewrite lookup_app_r by (rewrite length_take; lia).
        rewrite length_take.
        replace (j - j `min` length (chunks_ comp))%nat with 0%nat by lia.
        reflexivity.
Qed.

(** The contracts of [SplitChunk] make every split exact. *)
Lemma split_contracts_exact c position :
  split_keeps_length ->
  split_left_length ->
  0 < position < CharChunk.GetLength c kNullT12r ->
  split_exact c position.
Proof.
  intros Hkeep Hleft Hin. unfold split_exact. cbv zeta.
  pose proof (Hkeep c position Hin) as Hlaw. cbv zeta in Hlaw.
  pose proof (Hleft c position Hin) as Hunits.
  split; [exact Hunits | lia].
Qed.

Lemma MaybeSplitChunkAt_boundary position comp :
  split_keeps_length ->
  split_left_length ->
  position <= sum_lengths kNullT12r (chunks_ comp) ->
  exists left it chunks,
    MaybeSplitChunkAt position comp = Ok ((left, it), with_chunks comp chunks)
    /\ sum_lengths kNullT12r chunks = sum_lengths kNullT12r (chunks_ comp)
    /\ sum_lengths kNullT12r (take it chunks) = position.
Proof.
  intros Hkeep Hleft. apply MaybeSplitChunkAt_exact.
  intros it i c _ _. apply split_contracts_exact; assumption.
Qed.

Lemma sum_lengths_delete transliterator k c chunks :
  chunks !! k = Some c ->
  sum_lengths transliterator (delete k chunks)
  + CharChunk.GetLength c transliterator
  = sum_lengths transliterator chunks.
Proof.
  intros Hc. rewrite delete_take_drop.
  rewrite <- (take_drop_middle _ _ _ Hc) at 3.
  rewrite !sum_lengths_app. simpl. lia.
Qed.

(** At a position strictly inside the buffer [MaybeSplitChunkAt] returns
    with its iterator on a chunk. *)
Lemma MaybeSplitChunkAt_inside position comp :
  position < GetLength comp ->
  exists left it comp' c,
    MaybeSplitChunkAt position comp = Ok ((left, it), comp')
    /\ chunks_ comp' !! it = Some c.
Proof.
  intros Hlt.
  assert (position < sum_lengths kNullT12r (chunks_ comp)) as Hsum.
  { rewrite GetLength_sum in Hlt.
    pose proof (size_wrap_le (sum_lengths kNullT12r (chunks_ comp))). lia. }
  assert (chunks_ comp <> []) as Hne.
  { intros Hnil. rewrite Hnil in Hsum. simpl in Hsum. lia. }
  destruct (MaybeSplitChunkAt_cases position comp (or_intror Hne))
    as [(Hzero & Hsplit)
       | (j & i & c & Hpos & Hget & Hc & [(Hi & Hsplit) | (Hi & Hsplit)])].
  - destruct (chunks_ comp) as [|c0 rest] eqn:Hchunks; [congruence|].
    exists None, begin_, comp, c0. rewrite Hchunks. auto.
  - destruct (chunks_ comp !! S j) as [c'|] eqn:Hnext;
      [exists (Some j), (S j), comp, c'; auto|].
    exfalso. apply lookup_ge_None in Hnext.
    destruct (GetChunkAt_cases _ _ _ _ _ Hget)
      as [(Hnil & _) | [(c1 & Hc1 & _ & Hpos_eq & _)
                       | (c1 & _ & _ & _ & Hbeyond)]];
      [congruence | | lia].
    assert (c1 = c) as -> by congruence.
    rewrite <- (take_ge (chunks_ comp) (S j)) in Hsum by exact Hnext.
    rewrite (sum_lengths_take_S _ _ _ _ Hc) in Hsum. lia.
  - eexists (Some j), (S j), _, _. split; [exact Hsplit|].
    apply lookup_lt_Some in Hc. cbn [with_chunks chunks_].
    apply lookup_after_split. exact Hc.
Qed.


(** X27: under the contracts of [SplitChunk], and when the chunk at the
    boundary is not empty, [DeleteAt] at a position strictly inside the
    buffer returns that position and takes exactly one unit off the sum of
    the default lengths. *)
Lemma DeleteAt_removes_one_unit position comp :
  split_keeps_length ->
  split_left_length ->
  position < GetLength comp ->
  (forall c, chunk_at position comp = Some c ->
             CharChunk.GetLength c kNullT12r <> 0) ->
  exists comp',
    DeleteAt position comp = Ok (position, comp')
    /\ sum_lengths kNullT12r (chunks_ comp') + 1
       = sum_lengths kNullT12r (chunks_ comp).
Proof.
  intros Hkeep Hleft Hlt Hunit.
  assert (position < sum_lengths kNullT12r (chunks_ comp)
          /\ position <= SIZE_MAX) as [Hsum Hmax].
  { pose proof (size_wrap_le (sum_lengths kNullT12r (chunks_ comp))).
    pose proof (size_add_le_max (sum_lengths kNullT12r (chunks_ comp)) 0)
      as Hbound.
    unfold size_add in Hbound. rewrite N.add_0_r in Hbound.
    rewrite GetLength_sum in Hlt. lia. }
  destruct (MaybeSplitChunkAt_inside position comp Hlt)
    as (left & it & comp1 & c & Hsplit & Hc).
  pose proof (DeleteAt_at_chunk _ _ _ _ _ _ Hsplit Hc) as Hdelete.
  destruct (MaybeSplitChunkAt_boundary position comp Hkeep Hleft
              ltac:(lia))
    as (left' & it' & chunks1 & Hsplit' & Hsum1 & Htake).
  rewrite Hsplit in Hsplit'. injection Hsplit' as -> -> ->.
  cbn [with_chunks chunks_] in Hc.
  assert (CharChunk.GetLength c kNullT12r <> 0) as Hc_unit.
  { apply Hunit. unfold chunk_at. rewrite Hsplit. exact Hc. }
  rewrite Hdelete. eexists. split.
  - f_equal. f_equal. rewrite GetPosition_exact; cbn [with_chunks chunks_];
      rewrite Htake; [reflexivity | exact Hmax].
  - cbn [with_chunks chunks_].
    destruct (N.eqb_spec (CharChunk.GetLength c kNullT12r) 1) as [Hone|Hmore].
    + pose proof (sum_lengths_delete kNullT12r it' c chunks1 Hc). lia.
    + assert (0 < 1 < CharChunk.GetLength c kNullT12r) as Hin by lia.
      pose proof (Hkeep c 1 Hin) as Hlaw. cbv zeta in Hlaw.
      pose proof (Hleft c 1 Hin) as Hunits.
      pose proof (sum_lengths_insert kNullT12r it' c
                    (fst (CharChunk.SplitChunk c kNullT12r 1 CharChunk.new))
                    chunks1 Hc).
      lia.
Qed.

(** [MaybeSplitChunkAt] dereferences [chunks_.end()] when the buffer is
    empty and the position is not 0, and so do its callers. *)
Lemma MaybeSplitChunkAt_empty_buffer pos input_t12r table :
  0 < pos ->
  MaybeSplitChunkAt pos (Composition.mk [] input_t12r table)
  = Fault DerefEnd.
Proof.
  intros Hpos. unfold MaybeSplitChunkAt.
  rewrite (proj2 (N.leb_gt pos 0) Hpos). reflexivity.
Qed.

Lemma InsertAt_empty_buffer fuel pos input input_t12r table :
  0 < pos ->
  input <> EmptyString ->
  InsertAt fuel pos input (Composition.mk [] input_t12r table)
  = Fault DerefEnd.
Proof.
  intros Hpos Hinput. unfold InsertAt.
  destruct (decide (input = EmptyString)); [contradiction|].
  unfold bind. rewrite MaybeSplitChunkAt_empty_buffer by exact Hpos.
  reflexivity.
Qed.

End WithCharChunk.

(** ** The scenarios of the spec on the chunk with a rule table *)

Section Scenarios.

Import SpecChunk (empty, buffer_ka, buffer_ka_ki, buffer_t, buffer_tt,
                  buffer_tto).
Local Open Scope string_scope.

(* Scenario 1: "ka" into the empty buffer. *)
Example insert_ka :
  InsertAt 2 0 "ka" empty = Ok (1, buffer_ka)
  /\ GetLength buffer_ka = 1
  /\ GetString "" buffer_ka = ("か", []).
Proof. repeat split; vm_compute; reflexivity. Qed.

(* Scenario 2: "t", "t" and "o", each at the end. *)
Example insert_t_t_o :
  InsertAt 1 0 "t" empty = Ok (1, buffer_t)
  /\ InsertAt 1 1 "t" buffer_t = Ok (2, buffer_tt)
  /\ InsertAt 1 2 "o" buffer_tt = Ok (2, buffer_tto)
  /\ GetString "" buffer_tto = ("っと", []).
Proof. repeat split; vm_compute; reflexivity. Qed.

(* Scenario 3: deleting at the boundary of two chunks. *)
Example delete_ki :
  InsertAt 2 1 "ki" buffer_ka = Ok (2, buffer_ka_ki)
  /\ DeleteAt 1 buffer_ka_ki = Ok (1, buffer_ka).
Proof. repeat split; vm_compute; reflexivity. Qed.

(* Scenario 4: the end of a chunk maps to the end of the chunk. *)
Example convert_end_of_chunk :
  ConvertPosition 1 None (Some SpecChunk.Raw) buffer_ka_ki
  = Ok (2, buffer_ka_ki)
  /\ ConvertPosition 2 None (Some SpecChunk.Raw) buffer_tto
     = Ok (3, buffer_tto).
Proof. repeat split; vm_compute; reflexivity. Qed.

End Scenarios.

(** ** The contracts on the chunk of direct input *)

Lemma length_substring (s : string) :
  forall n m : nat,
    (n + m <= String.length s)%nat ->
    String.length (String.substring n m s) = m.
Proof.
  induction s as [|a s IH]; intros n m Hle; simpl in Hle.
  - assert (n = 0%nat /\ m = 0%nat) as [-> ->] by lia. reflexivity.
  - destruct n as [|n]; simpl.
    + destruct m as [|m]; [reflexivity|]. simpl. rewrite IH; lia.
    + apply IH. lia.
Qed.

Lemma DirectChunk_split_keeps_length :
  @split_keeps_length unit unit DirectChunk.chunk DirectChunk.interface.
Proof.
  intros c position Hpos parts. subst parts.
  cbn [CharChunk.SplitChunk CharChunk.GetLength DirectChunk.interface
       DirectChunk.SplitChunk DirectChunk.GetLength fst snd] in *.
  unfold DirectChunk.GetLength in *.
  rewrite !length_substring by lia. lia.
Qed.

(** ** The statements at concrete buffers *)

Section Concrete.

Import SpecChunk (empty, buffer_ka_ki, buffer_t, buffer_tt, buffer_tto,
                  buffer_t_tsu).
Local Open Scope string_scope.

Lemma ConvertPosition_in_chunk_witness :
  3 <= SIZE_MAX
  /\ position_in_chunk (Some SpecChunk.Raw) buffer_ka_ki 3 1 1
  /\ ConvertPosition 3 (Some SpecChunk.Raw) None buffer_ka_ki
     = Ok (2, buffer_ka_ki).
Proof.
  assert (3 <= SIZE_MAX) as Hmax by (vm_compute; discriminate).
  assert (position_in_chunk (Some SpecChunk.Raw) buffer_ka_ki 3 1 1) as Hin.
  { split; [reflexivity | split; [|reflexivity]].
    unfold end_. simpl. lia. }
  split; [exact Hmax | split; [exact Hin |]].
  exact (ConvertPosition_in_chunk 3 (Some SpecChunk.Raw) None buffer_ka_ki
           1 1 SpecChunk.ki Hmax Hin eq_refl).
Defined.

Lemma ConvertPosition_no_chunk_witness :
  Some SpecChunk.Raw <> None
  /\ fst (GetChunkAt 5 (Some SpecChunk.Raw) empty) = end_ empty
  /\ ConvertPosition 5 (Some SpecChunk.Raw) None empty = Ok (0, empty).
Proof.
  assert (Some SpecChunk.Raw <> @None SpecChunk.policy) as Hne
    by discriminate.
  split; [exact Hne | split; [reflexivity |]].
  exact (ConvertPosition_no_chunk 5 (Some SpecChunk.Raw) None empty
           Hne eq_refl).
Defined.

(** C2, as stated, fails on the empty buffer when the two policies are the
    same: no chunk contains position 5, and the result is 5, not 0. *)
Lemma ConvertPosition_no_chunk_same_policy :
  fst (GetChunkAt 5 None empty) = end_ empty
  /\ ConvertPosition 5 None None empty = Ok (5, empty)
  /\ ConvertPosition 5 None None empty <> Ok (0, empty).
Proof.
  split; [reflexivity | split; [reflexivity |]].
  vm_compute. discriminate.
Qed.

Lemma DeleteAt_at_length_witness :
  chunk_at (GetLength buffer_ka_ki) buffer_ka_ki = None
  /\ DeleteAt 2 buffer_ka_ki = Ok (2, buffer_ka_ki).
Proof.
  split; [reflexivity|].
  exact (DeleteAt_at_length buffer_ka_ki eq_refl).
Defined.


Lemma SetTransliterator_reversed_range_witness :
  1 < 2
  /\ SetTransliterator 2 1 (Some SpecChunk.Raw) buffer_ka_ki
     = Ok ([(ERROR,
             "position_from should not be greater than position_to.")],
           buffer_ka_ki).
Proof.
  assert (1 < 2) as Hlt by reflexivity.
  split; [exact Hlt|].
  exact (SetTransliterator_reversed_range 2 1 (Some SpecChunk.Raw)
           buffer_ka_ki Hlt).
Defined.

Lemma SetTransliterator_empty_buffer_witness :
  0 <= 0
  /\ SetTransliterator 0 0 (Some SpecChunk.Raw) empty = Fault DerefEnd
  /\ GetTransliterator 0 empty = Fault DerefEnd.
Proof.
  assert (0 <= 0) as Hle by reflexivity.
  split; [exact Hle|].
  exact (SetTransliterator_empty_buffer 0 0 (Some SpecChunk.Raw) None
           SpecChunk.scenario_table Hle).
Defined.


(** On the chunk with a rule table, a keystroke that completes a rule does
    not lengthen its chunk: "o" after the pending "tt" turns two pending
    units into the two units of the rule's output, and the length stays
    2. *)
Lemma InsertAt_completes_rule :
  InsertAt 1 2 "o" buffer_tt = Ok (2, buffer_tto)
  /\ GetLength buffer_tt = 2
  /\ GetLength buffer_tto = 2
  /\ ~ lengthens SpecChunk.scenario_table SpecChunk.tt_pending "o".
Proof.
  split; [reflexivity | split; [reflexivity | split; [reflexivity |]]].
  vm_compute. discriminate.
Qed.


End Concrete.

End CompositionFacts.

(** * Further properties of the composition buffer *)

Module CompositionExtFacts.

Import Composition CompositionExt CompositionFacts.

Section WithCharChunk.

Context {T12r Table chunk : Type}.
Context `{EqDecision T12r} `{!CharChunk.Interface T12r Table chunk}.
Context `{!CharChunkPreedit.Interface Table chunk}.

Implicit Types (comp : Composition.t T12r Table chunk).
Implicit Types (chunks rest : list chunk) (c : chunk).
Implicit Types (transliterator : option T12r).

(** ** The chunk lookup and the position of an iterator *)

(** X1: [GetChunkAt] returns [chunks_.end()] with inner position 0 on the
    empty buffer, and on every other buffer the iterator of a chunk of the
    sequence with an inner position of at most that chunk's length, however
    large the position is. *)
Theorem GetChunkAt_result position transliterator comp :
  (chunks_ comp = []
   /\ GetChunkAt position transliterator comp = (end_ comp, 0))
  \/ (exists c,
        chunks_ comp !! fst (GetChunkAt position transliterator comp)
        = Some c
        /\ snd (GetChunkAt position transliterator comp)
           <= CharChunk.GetLength c transliterator).
Proof.
  destruct (chunks_ comp) as [|c0 rest] eqn:Hchunks.
  - left. split; [reflexivity|].
    unfold GetChunkAt, end_. rewrite Hchunks. reflexivity.
  - right.
    destruct (GetChunkAt position transliterator comp) as [it i] eqn:Hget.
    destruct (GetChunkAt_lookup position transliterator comp it i)
      as (c & Hc & Hi); [congruence | exact Hget |].
    exists c. rewrite Hchunks in Hc. auto.
Qed.

Lemma sum_lengths_take_max transliterator comp it :
  sum_lengths transliterator (chunks_ comp) <= SIZE_MAX ->
  GetPosition transliterator it comp
  = sum_lengths transliterator (take it (chunks_ comp)).
Proof.
  intros Hmax. apply GetPosition_exact.
  pose proof (sum_lengths_take_le transliterator it (chunks_ comp)). lia.
Qed.

(** X2: the lookup inverts the position of an iterator.  When the lengths
    add up within [size_t], the position [i] units behind the start of the
    chunk at [it] is found in that chunk at inner position [i], for every
    [i] from 1 to the length of the chunk, and for [i = 0] in the first
    chunk. *)
Theorem GetChunkAt_GetPosition transliterator comp it i c :
  sum_lengths transliterator (chunks_ comp) <= SIZE_MAX ->
  chunks_ comp !! it = Some c ->
  i <= CharChunk.GetLength c transliterator ->
  it = 0%nat \/ 0 < i ->
  GetChunkAt (GetPosition transliterator it comp + i) transliterator comp
  = (it, i).
Proof.
  intros Hmax Hc Hi Hfirst. rewrite sum_lengths_take_max by exact Hmax.
  apply (position_in_chunk_intro transliterator comp _ it i c);
    auto.
Qed.

(** X3: the position of the iterator the lookup returns, plus the inner
    position, is the position looked up, for every position within the
    buffer, when the lengths add up within [size_t]. *)
Theorem GetPosition_GetChunkAt position transliterator comp :
  sum_lengths transliterator (chunks_ comp) <= SIZE_MAX ->
  position <= sum_lengths transliterator (chunks_ comp) ->
  GetPosition transliterator
    (fst (GetChunkAt position transliterator comp)) comp
  + snd (GetChunkAt position transliterator comp)
  = position.
Proof.
  intros Hmax Hle. rewrite sum_lengths_take_max by exact Hmax.
  destruct (GetChunkAt position transliterator comp) as [it i] eqn:Hget.
  cbn [fst snd].
  destruct (GetChunkAt_cases _ _ _ _ _ Hget)
    as [(Hnil & -> & ->) | [(c & _ & _ & Hpos & _) | (c & _ & _ & _ & Hgt)]];
    [|lia|lia].
  rewrite Hnil in *. simpl in *. lia.
Qed.

(** X4: a position beyond the buffer is looked up in the last chunk, at
    the end of it. *)
Theorem GetChunkAt_beyond position transliterator comp :
  chunks_ comp <> [] ->
  sum_lengths transliterator (chunks_ comp) < position ->
  exists c,
    last (chunks_ comp) = Some c
    /\ GetChunkAt position transliterator comp
       = (pred (end_ comp), CharChunk.GetLength c transliterator).
Proof.
  intros Hne Hgt.
  destruct (GetChunkAt position transliterator comp) as [it i] eqn:Hget.
  destruct (GetChunkAt_cases _ _ _ _ _ Hget)
    as [(Hnil & _) | [(c & Hc & Hi & Hpos & _)
                     | (c & Hc & Hend & -> & _)]];
    [congruence | |].
  - pose proof (sum_lengths_lookup_le transliterator _ _ _ Hc). lia.
  - exists c. unfold end_. rewrite last_lookup, <- Hend. auto.
Qed.

(** The lookup is monotone in the position, in the chunk first and in the
    inner position within one chunk. *)
Lemma GetChunkAt_lex_mono transliterator comp p q k1 i1 k2 i2 :
  p <= q ->
  GetChunkAt p transliterator comp = (k1, i1) ->
  GetChunkAt q transliterator comp = (k2, i2) ->
  (k1 < k2)%nat \/ (k1 = k2 /\ i1 <= i2).
Proof.
  intros Hpq Hp Hq.
  pose proof (GetChunkAt_mono transliterator comp p q Hpq) as Hmono.
  rewrite Hp, Hq in Hmono. cbn [fst] in Hmono.
  destruct (decide (k1 = k2)) as [<-|Hne]; [right | left; lia].
  split; [reflexivity|].
  destruct (GetChunkAt_cases _ _ _ _ _ Hp)
    as [(Hnil & _ & ->) | [(c1 & Hc1 & Hi1 & Hp_eq & _)
                          | (c1 & Hc1 & _ & -> & Hp_gt)]]; [lia | |];
    destruct (GetChunkAt_cases _ _ _ _ _ Hq)
      as [(Hnil' & _ & _) | [(c2 & Hc2 & Hi2 & Hq_eq & _)
                            | (c2 & Hc2 & _ & -> & Hq_gt)]];
    try (rewrite Hnil' in Hc1; discriminate);
    try (assert (c2 = c1) as -> by congruence); try lia.
  pose proof (sum_lengths_lookup_le transliterator _ _ _ Hc1). lia.
Qed.

(** X5: the lookup is monotone.  Of two positions the greater is found in
    the same chunk at an inner position that is not smaller, or in a later
    chunk. *)
Theorem GetChunkAt_monotone transliterator comp p q :
  p <= q ->
  (fst (GetChunkAt p transliterator comp)
   < fst (GetChunkAt q transliterator comp))%nat
  \/ (fst (GetChunkAt p transliterator comp)
      = fst (GetChunkAt q transliterator comp)
      /\ snd (GetChunkAt p transliterator comp)
         <= snd (GetChunkAt q transliterator comp)).
Proof.
  intros Hpq.
  destruct (GetChunkAt p transliterator comp) as [k1 i1] eqn:Hp.
  destruct (GetChunkAt q transliterator comp) as [k2 i2] eqn:Hq.
  exact (GetChunkAt_lex_mono transliterator comp p q k1 i1 k2 i2 Hpq Hp Hq).
Qed.

(** X6: [GetPosition] is the sum of the lengths of the chunks in front of
    the iterator, reduced modulo [SIZE_MAX + 1] once: the wrap-around of
    the additions of the loop has no other effect.  [GetLength] is that sum
    over all chunks under the default view. *)
Theorem GetPosition_modular transliterator cur_it comp :
  GetPosition transliterator cur_it comp
  = sum_lengths transliterator (take cur_it (chunks_ comp))
    mod (SIZE_MAX + 1)
  /\ GetLength comp
     = sum_lengths kNullT12r (chunks_ comp) mod (SIZE_MAX + 1).
Proof. split; [apply GetPosition_sum | apply GetLength_sum]. Qed.

Lemma GetPosition_le transliterator comp it1 it2 :
  sum_lengths transliterator (chunks_ comp) <= SIZE_MAX ->
  (it1 <= it2)%nat ->
  GetPosition transliterator it1 comp <= GetPosition transliterator it2 comp.
Proof.
  intros Hmax Hle. rewrite !sum_lengths_take_max by exact Hmax.
  replace (take it1 (chunks_ comp))
    with (take it1 (take it2 (chunks_ comp)))
    by (rewrite take_take; f_equal; lia).
  apply sum_lengths_take_le.
Qed.

(** X7: when the lengths add up within [size_t], the position of an
    iterator does not decrease as the iterator moves right, and is at most
    the position of [chunks_.end()], the length of the buffer under the
    policy. *)
Theorem GetPosition_monotone transliterator comp it1 it2 :
  sum_lengths transliterator (chunks_ comp) <= SIZE_MAX ->
  (it1 <= it2)%nat ->
  GetPosition transliterator it1 comp <= GetPosition transliterator it2 comp
  /\ GetPosition transliterator it2 comp
     <= GetPosition transliterator (end_ comp) comp.
Proof.
  intros Hmax Hle. split; [apply GetPosition_le; assumption|].
  rewrite !sum_lengths_take_max by exact Hmax.
  unfold end_. rewrite firstn_all. apply sum_lengths_take_le.
Qed.

(** ** [ConvertPosition] *)

Lemma GetPosition_S transliterator comp it c :
  chunks_ comp !! it = Some c ->
  GetPosition transliterator (S it) comp
  = size_add (GetPosition transliterator it comp)
      (CharChunk.GetLength c transliterator).
Proof.
  intros Hc. unfold GetPosition.
  rewrite (take_S_r _ _ _ Hc), foldl_app. reflexivity.
Qed.

(** [ConvertPosition] between two different policies, once the lookup has
    found a chunk. *)
Lemma ConvertPosition_found position transliterator_from transliterator_to
    comp it i c :
  transliterator_from <> transliterator_to ->
  GetChunkAt position transliterator_from comp = (it, i) ->
  chunks_ comp !! it = Some c ->
  ConvertPosition position transliterator_from transliterator_to comp
  = Ok (if i =? 0 then GetPosition transliterator_to it comp
        else if i =? CharChunk.GetLength c transliterator_from
        then size_add (GetPosition transliterator_to it comp)
               (CharChunk.GetLength c transliterator_to)
        else if CharChunk.GetLength c transliterator_to <? i
        then size_add (GetPosition transliterator_to it comp)
               (CharChunk.GetLength c transliterator_to)
        else size_add (GetPosition transliterator_to it comp) i,
        comp).
Proof.
  intros Hne Hget Hc.
  assert (i <= CharChunk.GetLength c transliterator_from) as Hi.
  { destruct (GetChunkAt_lookup position transliterator_from comp it i)
      as (c' & Hc' & Hi); [|exact Hget|congruence].
    intros Hnil. rewrite Hnil in Hc. discriminate. }
  pose proof (lookup_lt_Some _ _ _ Hc) as Hlt.
  unfold ConvertPosition.
  destruct (decide (transliterator_from = transliterator_to));
    [contradiction|].
  unfold bind, gets, deref, raise, ret. rewrite Hget.
  destruct (decide (it = end_ comp)) as [Hend|_];
    [unfold end_ in Hend; lia|].
  rewrite Hc, (proj2 (N.leb_le _ _) Hi). cbn [negb].
  destruct (i =? 0); [reflexivity|]. rewrite Hc.
  destruct (i =? CharChunk.GetLength c transliterator_from); [reflexivity|].
  destruct (CharChunk.GetLength c transliterator_to <? i); reflexivity.
Qed.

Lemma ConvertPosition_empty position transliterator_from transliterator_to
    comp :
  transliterator_from <> transliterator_to ->
  chunks_ comp = [] ->
  ConvertPosition position transliterator_from transliterator_to comp
  = Ok (0, comp).
Proof.
  intros Hne Hnil. destruct comp as [chunks input_t12r table].
  cbn [chunks_] in Hnil. subst chunks. unfold ConvertPosition.
  destruct (decide (transliterator_from = transliterator_to));
    [contradiction | reflexivity].
Qed.

Lemma ConvertPosition_same position transliterator comp :
  ConvertPosition position transliterator transliterator comp
  = Ok (position, comp).
Proof.
  unfold ConvertPosition.
  destruct (decide (transliterator = transliterator)); [reflexivity|].
  contradiction.
Qed.

(** X8: [ConvertPosition] returns for every position, every pair of
    policies and every buffer: its [CHECK] never fails, it dereferences no
    [chunks_.end()], and it leaves the buffer as it was. *)
Theorem ConvertPosition_total position transliterator_from transliterator_to
    comp :
  exists position_to,
    ConvertPosition position transliterator_from transliterator_to comp
    = Ok (position_to, comp).
Proof.
  destruct (decide (transliterator_from = transliterator_to)) as [<-|Hne].
  { eexists. apply ConvertPosition_same. }
  destruct (chunks_ comp) as [|c0 rest] eqn:Hchunks.
  { eexists. apply ConvertPosition_empty; assumption. }
  destruct (GetChunkAt position transliterator_from comp) as [it i] eqn:Hget.
  destruct (GetChunkAt_lookup position transliterator_from comp it i)
    as (c & Hc & _); [congruence | exact Hget |].
  eexists. apply (ConvertPosition_found _ _ _ _ it i c); assumption.
Qed.

(** X9: position 0 is converted to position 0, between any two policies
    and on every buffer. *)
Theorem ConvertPosition_zero transliterator_from transliterator_to comp :
  ConvertPosition 0 transliterator_from transliterator_to comp
  = Ok (0, comp).
Proof.
  destruct (decide (transliterator_from = transliterator_to)) as [<-|Hne].
  { apply ConvertPosition_same. }
  destruct (chunks_ comp) as [|c0 rest] eqn:Hchunks.
  { apply ConvertPosition_empty; assumption. }
  rewrite (ConvertPosition_found 0 _ _ comp 0 0 c0 Hne).
  - reflexivity.
  - unfold GetChunkAt. rewrite Hchunks. cbn [GetChunkAt_loop].
    rewrite (proj2 (N.leb_le 0 _)) by lia. reflexivity.
  - rewrite Hchunks. reflexivity.
Qed.

(** X10: between two different policies the converted position lies within
    the chunk the position was found in: it is at least the position of
    that chunk under the target policy and at most the position of the
    next.  The lengths under the target policy add up within [size_t]. *)
Theorem ConvertPosition_within_chunk position transliterator_from
    transliterator_to comp :
  transliterator_from <> transliterator_to ->
  chunks_ comp <> [] ->
  sum_lengths transliterator_to (chunks_ comp) <= SIZE_MAX ->
  let it := fst (GetChunkAt position transliterator_from comp) in
  exists position_to,
    ConvertPosition position transliterator_from transliterator_to comp
    = Ok (position_to, comp)
    /\ GetPosition transliterator_to it comp <= position_to
    /\ position_to <= GetPosition transliterator_to (S it) comp.
Proof.
  intros Hne Hchunks Hmax.
  destruct (GetChunkAt position transliterator_from comp) as [it i] eqn:Hget.
  cbn [fst].
  destruct (GetChunkAt_lookup _ _ _ _ _ Hchunks Hget) as (c & Hc & Hi).
  eexists. split; [apply (ConvertPosition_found _ _ _ _ it i c); assumption|].
  rewrite (GetPosition_S _ _ _ _ Hc).
  assert (GetPosition transliterator_to it comp
          + CharChunk.GetLength c transliterator_to <= SIZE_MAX) as Hfit.
  { rewrite sum_lengths_take_max by exact Hmax.
    pose proof (sum_lengths_lookup_le transliterator_to _ _ _ Hc). lia. }
  destruct (i =? 0);
    [rewrite size_add_exact by exact Hfit; lia|].
  destruct (i =? CharChunk.GetLength c transliterator_from);
    [rewrite size_add_exact by exact Hfit; lia|].
  destruct (N.ltb_spec (CharChunk.GetLength c transliterator_to) i);
    rewrite !size_add_exact by lia; lia.
Qed.

(** X11: [ConvertPosition] keeps the order of positions.  When the lengths
    under the target policy add up within [size_t], the greater of two
    positions is converted to a position that is not smaller. *)
Theorem ConvertPosition_monotone p q transliterator_from transliterator_to
    comp p' q' :
  sum_lengths transliterator_to (chunks_ comp) <= SIZE_MAX ->
  p <= q ->
  ConvertPosition p transliterator_from transliterator_to comp
  = Ok (p', comp) ->
  ConvertPosition q transliterator_from transliterator_to comp
  = Ok (q', comp) ->
  p' <= q'.
Proof.
  intros Hmax Hpq.
  destruct (decide (transliterator_from = transliterator_to)) as [<-|Hne].
  { rewrite !ConvertPosition_same. intros [= <-] [= <-]. exact Hpq. }
  destruct (chunks_ comp) as [|c0 rest] eqn:Hchunks.
  { rewrite !ConvertPosition_empty by assumption.
    intros [= <-] [= <-]. lia. }
  assert (chunks_ comp <> []) as Hnonempty by congruence.
  rewrite <- Hchunks in *. clear Hchunks c0 rest.
  destruct (GetChunkAt p transliterator_from comp) as [k1 i1] eqn:Hp.
  destruct (GetChunkAt q transliterator_from comp) as [k2 i2] eqn:Hq.
  destruct (GetChunkAt_lookup _ _ _ _ _ Hnonempty Hp) as (c1 & Hc1 & Hi1).
  destruct (GetChunkAt_lookup _ _ _ _ _ Hnonempty Hq) as (c2 & Hc2 & Hi2).
  rewrite (ConvertPosition_found _ _ _ _ _ _ _ Hne Hp Hc1).
  rewrite (ConvertPosition_found _ _ _ _ _ _ _ Hne Hq Hc2).
  intros [= <-] [= <-].
  assert (forall k c, chunks_ comp !! k = Some c ->
            GetPosition transliterator_to k comp
            + CharChunk.GetLength c transliterator_to
            = GetPosition transliterator_to (S k) comp
            /\ GetPosition transliterator_to (S k) comp <= SIZE_MAX)
    as Hstep.
  { intros k c Hc. rewrite (GetPosition_S _ _ _ _ Hc).
    assert (GetPosition transliterator_to k comp
            + CharChunk.GetLength c transliterator_to <= SIZE_MAX) as Hfit.
    { rewrite sum_lengths_take_max by exact Hmax.
      pose proof (sum_lengths_lookup_le transliterator_to _ _ _ Hc). lia. }
    rewrite size_add_exact by exact Hfit. lia. }
  destruct (Hstep _ _ Hc1) as [Hnext1 Hfit1].
  destruct (Hstep _ _ Hc2) as [Hnext2 Hfit2].
  destruct (GetChunkAt_lex_mono _ _ _ _ _ _ _ _ Hpq Hp Hq)
    as [Hlt | [<- Hle]].
  - (* a later chunk: the end of the first is not behind its start *)
    pose proof (GetPosition_le transliterator_to comp (S k1) k2 Hmax
                  ltac:(lia)) as Hbetween.
    assert ((if i1 =? 0 then GetPosition transliterator_to k1 comp
             else if i1 =? CharChunk.GetLength c1 transliterator_from
             then size_add (GetPosition transliterator_to k1 comp)
                    (CharChunk.GetLength c1 transliterator_to)
             else if CharChunk.GetLength c1 transliterator_to <? i1
             then size_add (GetPosition transliterator_to k1 comp)
                    (CharChunk.GetLength c1 transliterator_to)
             else size_add (GetPosition transliterator_to k1 comp) i1)
            <= GetPosition transliterator_to (S k1) comp) as Hupper.
    { destruct (i1 =? 0); [lia|].
      destruct (i1 =? CharChunk.GetLength c1 transliterator_from);
        [rewrite size_add_exact by lia; lia|].
      destruct (N.ltb_spec (CharChunk.GetLength c1 transliterator_to) i1);
        rewrite size_add_exact by lia; lia. }
    assert (GetPosition transliterator_to k2 comp
            <= (if i2 =? 0 then GetPosition transliterator_to k2 comp
                else if i2 =? CharChunk.GetLength c2 transliterator_from
                then size_add (GetPosition transliterator_to k2 comp)
                       (CharChunk.GetLength c2 transliterator_to)
                else if CharChunk.GetLength c2 transliterator_to <? i2
                then size_add (GetPosition transliterator_to k2 comp)
                       (CharChunk.GetLength c2 transliterator_to)
                else size_add (GetPosition transliterator_to k2 comp) i2))
      as Hlower.
    { destruct (i2 =? 0); [lia|].
      destruct (i2 =? CharChunk.GetLength c2 transliterator_from);
        [rewrite size_add_exact by lia; lia|].
      destruct (N.ltb_spec (CharChunk.GetLength c2 transliterator_to) i2);
        rewrite size_add_exact by lia; lia. }
    lia.
  - (* the same chunk *)
    assert (c2 = c1) as -> by congruence.
    destruct (N.eqb_spec i1 0); destruct (N.eqb_spec i2 0);
      destruct (N.eqb_spec i1 (CharChunk.GetLength c1 transliterator_from));
      destruct (N.eqb_spec i2 (CharChunk.GetLength c1 transliterator_from));
      destruct (N.ltb_spec (CharChunk.GetLength c1 transliterator_to) i1);
      destruct (N.ltb_spec (CharChunk.GetLength c1 transliterator_to) i2);
      rewrite ?size_add_exact by lia; lia.
Qed.

(** X12: the end of a chunk is converted to the end of the same chunk.
    When the lengths under the source policy add up within [size_t] and the
    chunk at [it] is not empty under the source policy, the position of the
    iterator behind it under the source policy is converted to the position
    of that iterator under the target policy. *)
Theorem ConvertPosition_end_of_chunk transliterator_from transliterator_to
    comp it c :
  sum_lengths transliterator_from (chunks_ comp) <= SIZE_MAX ->
  chunks_ comp !! it = Some c ->
  CharChunk.GetLength c transliterator_from <> 0 ->
  ConvertPosition (GetPosition transliterator_from (S it) comp)
    transliterator_from transliterator_to comp
  = Ok (GetPosition transliterator_to (S it) comp, comp).
Proof.
  intros Hmax Hc Hlen.
  destruct (decide (transliterator_from = transliterator_to)) as [<-|Hne].
  { apply ConvertPosition_same. }
  assert (GetChunkAt (GetPosition transliterator_from (S it) comp)
            transliterator_from comp
          = (it, CharChunk.GetLength c transliterator_from)) as Hget.
  { rewrite sum_lengths_take_max by exact Hmax.
    apply (position_in_chunk_intro transliterator_from comp _ it _ c);
      [exact Hc | apply sum_lengths_take_S; exact Hc | lia | right; lia]. }
  rewrite (ConvertPosition_found _ _ _ _ _ _ _ Hne Hget Hc).
  rewrite (GetPosition_S _ _ _ _ Hc).
  rewrite (proj2 (N.eqb_neq _ _) Hlen), N.eqb_refl. reflexivity.
Qed.

(** X13: between two different policies, a position beyond the buffer
    under the source policy is converted to the length of the buffer under
    the target policy, when the last chunk is not empty under the source
    policy. *)
Theorem ConvertPosition_beyond position transliterator_from
    transliterator_to comp c :
  transliterator_from <> transliterator_to ->
  last (chunks_ comp) = Some c ->
  CharChunk.GetLength c transliterator_from <> 0 ->
  sum_lengths transliterator_from (chunks_ comp) < position ->
  ConvertPosition position transliterator_from transliterator_to comp
  = Ok (GetPosition transliterator_to (end_ comp) comp, comp).
Proof.
  intros Hne Hlast Hlen Hgt.
  assert (chunks_ comp <> []) as Hchunks
    by (intros Hnil; rewrite Hnil in Hlast; discriminate).
  destruct (GetChunkAt position transliterator_from comp) as [it i] eqn:Hget.
  rewrite last_lookup in Hlast.
  destruct (GetChunkAt_cases _ _ _ _ _ Hget)
    as [(Hnil & _) | [(c1 & Hc1 & Hi & Hpos & _)
                     | (c1 & Hc1 & Hend & -> & _)]];
    [congruence | |].
  { pose proof (sum_lengths_lookup_le transliterator_from _ _ _ Hc1). lia. }
  rewrite <- Hend in Hlast. cbn [pred] in Hlast.
  assert (c1 = c) as -> by congruence.
  rewrite (ConvertPosition_found _ _ _ _ _ _ _ Hne Hget Hc1).
  unfold end_. rewrite <- Hend, (GetPosition_S _ _ _ _ Hc1).
  rewrite (proj2 (N.eqb_neq _ _) Hlen), N.eqb_refl. reflexivity.
Qed.

(** ** [MaybeSplitChunkAt] *)

(** X14: at position 0, or on a buffer that is not empty,
    [MaybeSplitChunkAt] returns an iterator of the sequence it leaves, and
    either leaves the sequence as it was or replaces one chunk, in which the
    position lies strictly inside, by the two parts [SplitChunk] makes of it
    at the inner position; the iterator is on the second part.  Every other
    chunk keeps its place and its content. *)
Theorem MaybeSplitChunkAt_effect pos comp :
  pos = 0 \/ chunks_ comp <> [] ->
  exists left it chunks,
    MaybeSplitChunkAt pos comp = Ok ((left, it), with_chunks comp chunks)
    /\ (it <= length chunks)%nat
    /\ (chunks = chunks_ comp
        \/ exists j c i,
             chunks_ comp !! j = Some c
             /\ 0 < i < CharChunk.GetLength c kNullT12r
             /\ pos = sum_lengths kNullT12r (take j (chunks_ comp)) + i
             /\ it = S j
             /\ chunks
                = take j (chunks_ comp)
                  ++ snd (CharChunk.SplitChunk c kNullT12r i CharChunk.new)
                  :: fst (CharChunk.SplitChunk c kNullT12r i CharChunk.new)
                  :: drop (S j) (chunks_ comp)).
Proof.
  intros Hok.
  destruct (MaybeSplitChunkAt_cases _ _ Hok)
    as [(Hzero & Hsplit)
       | (j & i & c & Hpos & Hget & Hc & [(Hi & Hsplit) | (Hi & Hsplit)])];
    rewrite Hsplit.
  - exists None, begin_, (chunks_ comp). rewrite with_chunks_id.
    unfold begin_. auto with lia.
  - exists (Some j), (S j), (chunks_ comp). rewrite with_chunks_id.
    apply lookup_lt_Some in Hc. auto with lia.
  - pose proof (lookup_lt_Some _ _ _ Hc) as Hlt.
    eexists (Some j), (S j), _. split; [reflexivity|]. split.
    + rewrite length_app, length_take. simpl. lia.
    + right. exists j, c, i. repeat split; try (exact Hc || lia).
      destruct (GetChunkAt_cases _ _ _ _ _ Hget)
        as [(Hnil & _) | [(c1 & _ & _ & Hpos_eq & _)
                         | (c1 & Hc1 & _ & Hfull & _)]];
        [rewrite Hnil in Hc; discriminate | exact Hpos_eq |].
      assert (c1 = c) as -> by congruence. lia.
Qed.

(** X15: under the contracts of [SplitChunk], [MaybeSplitChunkAt] at a
    position within the buffer makes a chunk boundary exactly there: the
    position of the iterator it returns is the position asked for, and the
    length of the buffer is kept.  The lengths add up within [size_t]. *)
Theorem MaybeSplitChunkAt_at_position position comp :
  split_keeps_length ->
  split_left_length ->
  sum_lengths kNullT12r (chunks_ comp) <= SIZE_MAX ->
  position <= sum_lengths kNullT12r (chunks_ comp) ->
  exists left it comp',
    MaybeSplitChunkAt position comp = Ok ((left, it), comp')
    /\ GetPosition kNullT12r it comp' = position
    /\ GetLength comp' = GetLength comp.
Proof.
  intros Hkeep Hleft Hmax Hle.
  destruct (MaybeSplitChunkAt_boundary position comp Hkeep Hleft Hle)
    as (left & it & chunks & Hsplit & Hsum & Htake).
  exists left, it, (with_chunks comp chunks).
  split; [exact Hsplit|]. split.
  - rewrite GetPosition_exact; cbn [with_chunks chunks_]; rewrite Htake;
      [reflexivity | lia].
  - rewrite !GetLength_sum. cbn [with_chunks chunks_]. rewrite Hsum.
    reflexivity.
Qed.

(** ** The empty buffer *)

(** X16: on the empty buffer, at a position that is not 0,
    [MaybeSplitChunkAt] dereferences [chunks_.end()], and with it
    [DeleteAt], [InsertAt] of a string that is not empty and
    [InsertKeyAndPreeditAt] of a key or a preedit that is not empty. *)
Theorem empty_buffer_position pos input_t12r table :
  0 < pos ->
  let comp := Composition.mk [] input_t12r table in
  MaybeSplitChunkAt pos comp = Fault DerefEnd
  /\ DeleteAt pos comp = Fault DerefEnd
  /\ (forall fuel input,
        input <> EmptyString ->
        InsertAt fuel pos input comp = Fault DerefEnd)
  /\ (forall fuel key preedit,
        ~ (key = EmptyString /\ preedit = EmptyString) ->
        InsertKeyAndPreeditAt fuel pos key preedit comp = Fault DerefEnd).
Proof.
  intros Hpos comp.
  pose proof (MaybeSplitChunkAt_empty_buffer pos input_t12r table Hpos)
    as Hsplit.
  fold comp in Hsplit. repeat split.
  - exact Hsplit.
  - unfold DeleteAt, bind. rewrite Hsplit. reflexivity.
  - intros fuel input Hinput. apply InsertAt_empty_buffer; assumption.
  - intros fuel key preedit Hnonempty. unfold InsertKeyAndPreeditAt.
    destruct (decide (key = EmptyString /\ preedit = EmptyString));
      [contradiction|].
    unfold bind. rewrite Hsplit. reflexivity.
Qed.

(** ** [DeleteAt] *)

(** X17: [DeleteAt] at a position beyond the buffer returns the length of
    the buffer and leaves the buffer as it was. *)
Theorem DeleteAt_beyond position comp :
  chunks_ comp <> [] ->
  sum_lengths kNullT12r (chunks_ comp) < position ->
  DeleteAt position comp = Ok (GetLength comp, comp).
Proof.
  intros Hne Hgt.
  destruct (MaybeSplitChunkAt_cases position comp (or_intror Hne))
    as [(Hzero & _)
       | (j & i & c & Hpos & Hget & Hc & Hcase)]; [lia|].
  destruct (GetChunkAt_cases _ _ _ _ _ Hget)
    as [(Hnil & _) | [(c1 & Hc1 & Hi1 & Hpos_eq & _)
                     | (c1 & Hc1 & Hend & Hfull & _)]];
    [congruence | |].
  { pose proof (sum_lengths_lookup_le kNullT12r _ _ _ Hc1). lia. }
  assert (c1 = c) as -> by congruence.
  destruct Hcase as [(_ & Hsplit) | (Hi & _)]; [|lia].
  rewrite (DeleteAt_at_end _ _ _ _ _ Hsplit); [|exact Hend].
  unfold GetLength, end_. rewrite Hend. reflexivity.
Qed.

(** X28: at the length of a buffer whose lengths add up within [size_t]
    and whose last chunk, if there is one, is not empty under the default
    view, [MaybeSplitChunkAt] returns [chunks_.end()], together with the
    last chunk ([NULL] on the empty buffer), splits nothing and leaves the
    buffer as it was. *)
Theorem MaybeSplitChunkAt_at_length comp :
  sum_lengths kNullT12r (chunks_ comp) <= SIZE_MAX ->
  (forall c, last (chunks_ comp) = Some c ->
             CharChunk.GetLength c kNullT12r <> 0) ->
  MaybeSplitChunkAt (GetLength comp) comp
  = Ok ((match chunks_ comp with
         | [] => None
         | _ :: _ => Some (pred (end_ comp))
         end, end_ comp), comp).
Proof.
  intros Hmax Hlast.
  assert (GetLength comp = sum_lengths kNullT12r (chunks_ comp)) as Hlen.
  { unfold GetLength, end_. rewrite GetPosition_exact; rewrite firstn_all;
      [reflexivity | exact Hmax]. }
  assert (GetLength comp = 0 \/ chunks_ comp <> []) as Hok.
  { destruct comp as [[|c0 rest] input_t12r table];
      [left; reflexivity | right; discriminate]. }
  rewrite last_lookup in Hlast.
  destruct (MaybeSplitChunkAt_cases _ _ Hok)
    as [(Hzero & Hsplit)
       | (j & i & c & Hpos & Hget & Hc & [(Hi & Hsplit) | (Hi & Hsplit)])];
    rewrite Hsplit.
  - unfold begin_, end_.
    destruct (chunks_ comp) as [|c0 rest] eqn:Hchunks; [reflexivity|].
    exfalso.
    pose proof (Hlast _ (last_lookup_pred (c0 :: rest) c0
                           ltac:(discriminate))) as Hne.
    pose proof (sum_lengths_lookup_le kNullT12r _ _ _
                  (last_lookup_pred (c0 :: rest) c0 ltac:(discriminate))).
    lia.
  - assert (S j = end_ comp) as Hend.
    { unfold end_. pose proof (lookup_lt_Some _ _ _ Hc) as Hlt.
      destruct (chunks_ comp !! S j) as [c'|] eqn:Hnext;
        [|apply lookup_ge_None in Hnext; lia].
      exfalso.
      destruct (GetChunkAt_cases _ _ _ _ _ Hget)
        as [(Hnil & _) | [(c1 & Hc1 & _ & Hpos_eq & _)
                         | (c1 & _ & Hend & _ & _)]];
        [rewrite Hnil in Hc; discriminate |
        | apply lookup_lt_Some in Hnext; lia].
      assert (c1 = c) as -> by congruence.
      destruct (chunks_ comp !! pred (length (chunks_ comp)))
        as [cl|] eqn:Hcl.
      - pose proof (Hlast _ eq_refl) as Hne.
        apply lookup_lt_Some in Hnext.
        assert (S j <= pred (length (chunks_ comp)))%nat as Hj by lia.
        pose proof (sum_lengths_drop_lookup_le kNullT12r _ _ _ _ Hj Hcl)
          as Hle.
        rewrite (sum_lengths_take_S _ _ _ _ Hc) in Hle. lia.
      - apply lookup_ge_None in Hcl. apply lookup_lt_Some in Hnext. lia. }
    rewrite <- Hend.
    destruct (chunks_ comp); [discriminate | reflexivity].
  - exfalso.
    destruct (GetChunkAt_cases _ _ _ _ _ Hget)
      as [(Hnil & _) | [(c1 & Hc1 & _ & Hpos_eq & _)
                       | (c1 & Hc1 & _ & Hfull & _)]];
      [rewrite Hnil in Hc; discriminate |
      | assert (c1 = c) by congruence; subst; lia].
    assert (c1 = c) as -> by congruence.
    pose proof (sum_lengths_lookup_le kNullT12r _ _ _ Hc). lia.
Qed.

(** ** [InsertAt] *)

Lemma MaybeSplitChunkAt_shape pos comp :
  pos = 0 \/ chunks_ comp <> [] ->
  exists left it chunks,
    MaybeSplitChunkAt pos comp = Ok ((left, it), with_chunks comp chunks)
    /\ (it <= length chunks)%nat
    /\ (length (chunks_ comp) <= length chunks
        <= S (length (chunks_ comp)))%nat.
Proof.
  intros Hok.
  destruct (MaybeSplitChunkAt_cases _ _ Hok)
    as [(Hzero & Hsplit)
       | (j & i & c & Hpos & Hget & Hc & [(Hi & Hsplit) | (Hi & Hsplit)])];
    rewrite Hsplit.
  - exists None, begin_, (chunks_ comp). rewrite with_chunks_id.
    unfold begin_. auto with lia.
  - exists (Some j), (S j), (chunks_ comp). rewrite with_chunks_id.
    apply lookup_lt_Some in Hc. auto with lia.
  - pose proof (lookup_lt_Some _ _ _ Hc) as Hlt.
    eexists (Some j), (S j), _. split; [reflexivity|].
    rewrite length_app, length_take. cbn [length]. rewrite length_drop. lia.
Qed.

Lemma GetInsertionChunk_shape it comp :
  (it <= length (chunks_ comp))%nat ->
  exists ptr it' chunks,
    GetInsertionChunk it comp = Ok ((ptr, it'), with_chunks comp chunks)
    /\ (ptr < length chunks)%nat
    /\ (it' <= length chunks)%nat
    /\ (length (chunks_ comp) <= length chunks
        <= S (length (chunks_ comp)))%nat.
Proof.
  intros Hit.
  assert (exists chunks,
             InsertChunk it comp = Ok ((it, S it), with_chunks comp chunks)
             /\ (it < length chunks)%nat
             /\ (S it <= length chunks)%nat
             /\ (length (chunks_ comp) <= length chunks
                 <= S (length (chunks_ comp)))%nat) as Hnew.
  { eexists. split; [apply InsertChunk_eq|].
    rewrite length_insert_before. lia. }
  unfold GetInsertionChunk.
  destruct (decide (it = begin_)) as [_|Hne]; [eauto|].
  unfold begin_ in Hne.
  destruct (lookup_lt_is_Some_2 (chunks_ comp) (pred it) ltac:(lia))
    as [left Hleft].
  unfold bind, deref, gets, ret. rewrite Hleft.
  destruct (CharChunk.IsAppendable left (input_t12r_ comp)); [|eauto].
  exists (pred it), it, (chunks_ comp). rewrite with_chunks_id.
  repeat split; lia.
Qed.

(** The loop of [InsertAt], started on a chunk of the sequence, dereferences
    chunks of the sequence only and removes none. *)
Lemma InsertAt_loop_safe comp :
  forall fuel key ptr it chunks,
    (ptr < length chunks)%nat ->
    (it <= length chunks)%nat ->
    match InsertAt_loop fuel ptr key it (with_chunks comp chunks) with
    | Ok (_, comp') =>
        exists chunks',
          comp' = with_chunks comp chunks'
          /\ (length chunks <= length chunks')%nat
    | Fault _ => False
    | OutOfFuel => True
    end.
Proof.
  induction fuel as [|fuel IH]; intros key ptr it chunks Hptr Hit;
    [exact I|].
  destruct (lookup_lt_is_Some_2 chunks ptr Hptr) as [c Hc].
  cbn [InsertAt_loop]. unfold bind, deref, gets, update, ret.
  cbn [with_chunks chunks_ table_ input_t12r_]. rewrite Hc.
  change (table_ (with_chunks comp chunks)) with (table_ comp).
  destruct (CharChunk.AddInput c (table_ comp) key) as [c' key'].
  cbn [with_chunks chunks_ table_ input_t12r_]. rewrite Hc.
  cbn [with_chunks chunks_ table_ input_t12r_].
  destruct (decide (key' = EmptyString)) as [_|Hkey'].
  - eexists. split; [reflexivity|]. rewrite length_insert. lia.
  - rewrite InsertChunk_eq. cbn [with_chunks chunks_ table_ input_t12r_].
    specialize (IH key' it (S it)
                  (insert_before it
                     (CharChunk.SetTransliterator CharChunk.new
                        (input_t12r_ comp))
                     (<[ptr := c']> chunks))).
    rewrite length_insert_before, length_insert in IH.
    specialize (IH ltac:(lia) ltac:(lia)).
    change (with_chunks (with_chunks comp (<[ptr := c']> chunks))
              (insert_before it
                 (CharChunk.SetTransliterator CharChunk.new
                    (input_t12r_ comp))
                 (<[ptr := c']> chunks)))
      with (with_chunks comp
              (insert_before it
                 (CharChunk.SetTransliterator CharChunk.new
                    (input_t12r_ comp))
                 (<[ptr := c']> chunks))).
    destruct (InsertAt_loop _ _ _ _ _) as [[it' comp']|f|];
      [|exact IH|exact I].
    destruct IH as (chunks' & -> & Hlen).
    exists chunks'. split; [reflexivity | lia].
Qed.

(** X18: at position 0, or on a buffer that is not empty, [InsertAt]
    dereferences chunks of the sequence only, whatever [AddInput] does with
    the input; when it returns, no chunk has been removed, and the table and
    the input mode are as before. *)
Theorem InsertAt_safe fuel pos input comp :
  pos = 0 \/ chunks_ comp <> [] ->
  match InsertAt fuel pos input comp with
  | Ok (_, comp') =>
      (length (chunks_ comp) <= length (chunks_ comp'))%nat
      /\ input_t12r_ comp' = input_t12r_ comp
      /\ table_ comp' = table_ comp
  | Fault _ => False
  | OutOfFuel => True
  end.
Proof.
  intros Hok. unfold InsertAt.
  destruct (decide (input = EmptyString)); [cbn; auto|].
  destruct (MaybeSplitChunkAt_shape pos comp Hok)
    as (left & it & chunks1 & Hsplit & Hit & Hlen1).
  destruct (GetInsertionChunk_shape it (with_chunks comp chunks1) Hit)
    as (ptr & it2 & chunks2 & Hget & Hptr & Hit2 & Hlen2).
  change (with_chunks (with_chunks comp chunks1) chunks2)
    with (with_chunks comp chunks2) in Hget.
  cbn [with_chunks chunks_] in Hlen2.
  pose proof (InsertAt_loop_safe comp fuel input ptr it2 chunks2 Hptr Hit2)
    as Hloop.
  unfold bind, gets. rewrite Hsplit, Hget.
  destruct (InsertAt_loop fuel ptr input it2 (with_chunks comp chunks2))
    as [[it3 comp3]|f|]; [|exact Hloop|exact I].
  destruct Hloop as (chunks3 & -> & Hlen3).
  cbn [with_chunks chunks_ input_t12r_ table_]. repeat split. lia.
Qed.

(** [GetInsertionChunk] hands out the chunk in front of the iterator and
    leaves the sequence as it is, or inserts a fresh chunk and hands that
    out. *)
Lemma GetInsertionChunk_cases it comp :
  (it <= length (chunks_ comp))%nat ->
  exists ptr it' chunks c,
    GetInsertionChunk it comp = Ok ((ptr, it'), with_chunks comp chunks)
    /\ chunks !! ptr = Some c
    /\ (it' <= length chunks)%nat
    /\ (chunks = chunks_ comp
        \/ (length chunks = S (length (chunks_ comp))
            /\ c = fresh_chunk comp)).
Proof.
  intros Hit.
  assert (exists chunks,
             InsertChunk it comp = Ok ((it, S it), with_chunks comp chunks)
             /\ chunks !! it = Some (fresh_chunk comp)
             /\ (S it <= length chunks)%nat
             /\ length chunks = S (length (chunks_ comp))) as Hnew.
  { eexists. split; [apply InsertChunk_eq|].
    split; [apply lookup_insert_before; exact Hit|].
    rewrite length_insert_before. lia. }
  unfold GetInsertionChunk.
  destruct (decide (it = begin_)) as [_|Hne].
  { destruct Hnew as (chunks & Hinsert & Hc & Hlen & Hlength).
    exists it, (S it), chunks, (fresh_chunk comp).
    split; [exact Hinsert | split; [exact Hc | split; [exact Hlen|]]].
    right. split; [exact Hlength | reflexivity]. }
  unfold begin_ in Hne.
  destruct (lookup_lt_is_Some_2 (chunks_ comp) (pred it) ltac:(lia))
    as [left Hleft].
  unfold bind, deref, gets, ret. rewrite Hleft.
  destruct (CharChunk.IsAppendable left (input_t12r_ comp)).
  - exists (pred it), it, (chunks_ comp), left. rewrite with_chunks_id.
    split; [reflexivity | split; [exact Hleft | split; [exact Hit|]]].
    left. reflexivity.
  - destruct Hnew as (chunks & Hinsert & Hc & Hlen & Hlength).
    exists it, (S it), chunks, (fresh_chunk comp).
    split; [exact Hinsert | split; [exact Hc | split; [exact Hlen|]]].
    right. split; [exact Hlength | reflexivity].
Qed.

(** When the chunk it starts on and every fresh chunk take some of the key,
    the loop of [InsertAt] ends within as many iterations as the key has
    characters, and inserts fewer chunks than that. *)
Lemma InsertAt_loop_returns comp input :
  (forall key,
     rest_of input key -> takes_some (table_ comp) (fresh_chunk comp) key) ->
  forall fuel key ptr it chunks c,
    rest_of input key ->
    chunks !! ptr = Some c ->
    takes_some (table_ comp) c key ->
    (String.length key <= fuel)%nat ->
    (it <= length chunks)%nat ->
    exists it' chunks',
      InsertAt_loop fuel ptr key it (with_chunks comp chunks)
      = Ok (it', with_chunks comp chunks')
      /\ (length chunks <= length chunks'
          < length chunks + String.length key)%nat.
Proof.
  intros Hfresh.
  induction fuel as [|fuel IH]; intros key ptr it chunks c Hrest Hc Htakes
    Hfuel Hit.
  - destruct Hrest as [Hkey _].
    destruct key; [congruence | simpl in Hfuel; lia].
  - pose proof (takes_some_shorter _ _ _ Htakes) as Hshorter.
    pose proof (rest_of_step _ _ _ _ Hrest Htakes) as Hnext.
    cbn [InsertAt_loop]. unfold bind, deref, gets, update, ret.
    cbn [with_chunks chunks_ table_ input_t12r_]. rewrite Hc.
    change (table_ (with_chunks comp chunks)) with (table_ comp).
    destruct (CharChunk.AddInput c (table_ comp) key) as [c' key'].
    cbn [snd] in Hshorter, Hnext.
    cbn [with_chunks chunks_ table_ input_t12r_]. rewrite Hc.
    cbn [with_chunks chunks_ table_ input_t12r_].
    destruct (decide (key' = EmptyString)) as [_|Hkey'].
    + eexists it, _. split; [reflexivity|]. rewrite length_insert. lia.
    + rewrite InsertChunk_eq. cbn [with_chunks chunks_ table_ input_t12r_].
      change (CharChunk.SetTransliterator CharChunk.new (input_t12r_ comp))
        with (fresh_chunk comp).
      destruct (IH key' it (S it)
                  (insert_before it (fresh_chunk comp) (<[ptr := c']> chunks))
                  (fresh_chunk comp))
        as (it' & chunks' & Hloop & Hlen);
        [exact (Hnext Hkey')
        | apply lookup_insert_before; rewrite length_insert; exact Hit
        | exact (Hfresh key' (Hnext Hkey')) | lia
        | rewrite length_insert_before, length_insert; lia |].
      rewrite length_insert_before, length_insert in Hlen.
      exists it', chunks'. split; [exact Hloop | lia].
Qed.

(** The same when the chunk the loop starts on may take nothing of the
    input: one iteration more, and no more chunks inserted than the first
    call of [AddInput] leaves characters. *)
Lemma InsertAt_loop_returns_from comp input :
  (forall key,
     rest_of input key -> takes_some (table_ comp) (fresh_chunk comp) key) ->
  forall fuel ptr it chunks c,
    chunks !! ptr = Some c ->
    takes_prefix (table_ comp) c input ->
    (S (String.length input) <= fuel)%nat ->
    (it <= length chunks)%nat ->
    exists it' chunks',
      InsertAt_loop fuel ptr input it (with_chunks comp chunks)
      = Ok (it', with_chunks comp chunks')
      /\ (length chunks <= length chunks'
          <= length chunks
             + String.length (snd (CharChunk.AddInput c (table_ comp) input)))%nat.
Proof.
  intros Hfresh fuel ptr it chunks c Hc [taken Htaken] Hfuel Hit.
  destruct fuel as [|fuel]; [lia|].
  assert (String.length (snd (CharChunk.AddInput c (table_ comp) input))
          <= String.length input)%nat as Hshorter.
  { rewrite Htaken at 2. rewrite length_append. lia. }
  assert (snd (CharChunk.AddInput c (table_ comp) input) <> EmptyString ->
          rest_of input (snd (CharChunk.AddInput c (table_ comp) input)))
    as Hnext.
  { intros Hne. split; [exact Hne|]. exists taken. exact Htaken. }
  cbn [InsertAt_loop]. unfold bind, deref, gets, update, ret.
  cbn [with_chunks chunks_ table_ input_t12r_]. rewrite Hc.
  change (table_ (with_chunks comp chunks)) with (table_ comp).
  destruct (CharChunk.AddInput c (table_ comp) input) as [c' key'].
  cbn [snd] in Hshorter, Hnext |- *.
  cbn [with_chunks chunks_ table_ input_t12r_]. rewrite Hc.
  cbn [with_chunks chunks_ table_ input_t12r_].
  destruct (decide (key' = EmptyString)) as [_|Hkey'].
  - eexists it, _. split; [reflexivity|]. rewrite length_insert. lia.
  - rewrite InsertChunk_eq. cbn [with_chunks chunks_ table_ input_t12r_].
    change (CharChunk.SetTransliterator CharChunk.new (input_t12r_ comp))
      with (fresh_chunk comp).
    destruct (InsertAt_loop_returns comp input Hfresh fuel key' it (S it)
                (insert_before it (fresh_chunk comp) (<[ptr := c']> chunks))
                (fresh_chunk comp))
      as (it' & chunks' & Hloop & Hlen);
      [exact (Hnext Hkey')
      | apply lookup_insert_before; rewrite length_insert; exact Hit
      | exact (Hfresh key' (Hnext Hkey')) | lia
      | rewrite length_insert_before, length_insert; lia |].
    rewrite length_insert_before, length_insert in Hlen.
    exists it', chunks'. split; [exact Hloop | lia].
Qed.


(** ** [InsertKeyAndPreeditAt] *)

Lemma InsertKeyAndPreeditAt_loop_safe comp :
  forall fuel raw_char converted_char ptr it chunks,
    (ptr < length chunks)%nat ->
    (it <= length chunks)%nat ->
    match InsertKeyAndPreeditAt_loop fuel ptr raw_char converted_char it
            (with_chunks comp chunks) with
    | Ok (_, comp') =>
        exists chunks',
          comp' = with_chunks comp chunks'
          /\ (length chunks <= length chunks')%nat
    | Fault _ => False
    | OutOfFuel => True
    end.
Proof.
  induction fuel as [|fuel IH];
    intros raw_char converted_char ptr it chunks Hptr Hit; [exact I|].
  destruct (lookup_lt_is_Some_2 chunks ptr Hptr) as [c Hc].
  cbn [InsertKeyAndPreeditAt_loop]. unfold bind, deref, gets, update, ret.
  cbn [with_chunks chunks_ table_ input_t12r_]. rewrite Hc.
  change (table_ (with_chunks comp chunks)) with (table_ comp).
  destruct (CharChunkPreedit.AddInputAndConvertedChar c (table_ comp)
              raw_char converted_char) as [c' [raw_char' converted_char']].
  cbn [with_chunks chunks_ table_ input_t12r_]. rewrite Hc.
  cbn [with_chunks chunks_ table_ input_t12r_].
  destruct (decide (raw_char' = EmptyString
                    /\ converted_char' = EmptyString)) as [_|Hrest].
  - eexists. split; [reflexivity|]. rewrite length_insert. lia.
  - rewrite InsertChunk_eq. cbn [with_chunks chunks_ table_ input_t12r_].
    specialize (IH raw_char' converted_char' it (S it)
                  (insert_before it
                     (CharChunk.SetTransliterator CharChunk.new
                        (input_t12r_ comp))
                     (<[ptr := c']> chunks))).
    rewrite length_insert_before, length_insert in IH.
    specialize (IH ltac:(lia) ltac:(lia)).
    change (with_chunks (with_chunks comp (<[ptr := c']> chunks))
              (insert_before it
                 (CharChunk.SetTransliterator CharChunk.new
                    (input_t12r_ comp))
                 (<[ptr := c']> chunks)))
      with (with_chunks comp
              (insert_before it
                 (CharChunk.SetTransliterator CharChunk.new
                    (input_t12r_ comp))
                 (<[ptr := c']> chunks))).
    destruct (InsertKeyAndPreeditAt_loop _ _ _ _ _ _) as [[it' comp']|f|];
      [|exact IH|exact I].
    destruct IH as (chunks' & -> & Hlen).
    exists chunks'. split; [reflexivity | lia].
Qed.

(** X20: [InsertKeyAndPreeditAt] with an empty key and an empty preedit
    returns the position it was given and leaves the buffer as it was, for
    every buffer and every position.  At position 0 or on a buffer that is
    not empty, it dereferences chunks of the sequence only, whatever the key
    and the preedit are and whatever [AddInputAndConvertedChar] does; when
    it returns, no chunk has been removed, and the table and the input mode
    are as before. *)
Theorem InsertKeyAndPreeditAt_safe fuel pos key preedit comp :
  (key = EmptyString /\ preedit = EmptyString ->
   InsertKeyAndPreeditAt fuel pos key preedit comp = Ok (pos, comp))
  /\ (pos = 0 \/ chunks_ comp <> [] ->
      match InsertKeyAndPreeditAt fuel pos key preedit comp with
      | Ok (_, comp') =>
          (length (chunks_ comp) <= length (chunks_ comp'))%nat
          /\ input_t12r_ comp' = input_t12r_ comp
          /\ table_ comp' = table_ comp
      | Fault _ => False
      | OutOfFuel => True
      end).
Proof.
  unfold InsertKeyAndPreeditAt.
  destruct (decide (key = EmptyString /\ preedit = EmptyString))
    as [_|Hnonempty]; [cbn; auto|].
  split; [intros Hempty; contradiction|]. intros Hok.
  destruct (MaybeSplitChunkAt_shape pos comp Hok)
    as (left & it & chunks1 & Hsplit & Hit & Hlen1).
  destruct (GetInsertionChunk_shape it (with_chunks comp chunks1) Hit)
    as (ptr & it2 & chunks2 & Hget & Hptr & Hit2 & Hlen2).
  change (with_chunks (with_chunks comp chunks1) chunks2)
    with (with_chunks comp chunks2) in Hget.
  cbn [with_chunks chunks_] in Hlen2.
  pose proof (InsertKeyAndPreeditAt_loop_safe comp fuel key preedit ptr it2
                chunks2 Hptr Hit2) as Hloop.
  unfold bind, gets. rewrite Hsplit, Hget.
  destruct (InsertKeyAndPreeditAt_loop fuel ptr key preedit it2
              (with_chunks comp chunks2))
    as [[it3 comp3]|f|]; [|exact Hloop|exact I].
  destruct Hloop as (chunks3 & -> & Hlen3).
  cbn [with_chunks chunks_ input_t12r_ table_]. repeat split. lia.
Qed.

(** ** [SetTransliterator], [GetTransliterator], [SetDisplayMode] *)

(** The loop of [SetTransliterator] sets the transliterator of the chunks
    from [chunk_it] up to, and without, [end_it], and of no other. *)
Lemma SetTransliterator_loop_range comp transliterator end_it :
  forall fuel chunk_it chunks,
    (chunk_it <= end_it)%nat ->
    (end_it <= length chunks)%nat ->
    (end_it - chunk_it <= fuel)%nat ->
    exists chunks',
      SetTransliterator_loop fuel transliterator chunk_it end_it
        (with_chunks comp chunks)
      = Ok (tt, with_chunks comp chunks')
      /\ length chunks' = length chunks
      /\ forall k,
           chunks' !! k
           = if decide (chunk_it <= k < end_it)%nat
             then (fun c => CharChunk.SetTransliterator c transliterator)
                    <$> chunks !! k
             else chunks !! k.
Proof.
  induction fuel as [|fuel IH]; intros chunk_it chunks Hle Hend Hfuel.
  - exists chunks. cbn [SetTransliterator_loop].
    destruct (decide (chunk_it = end_it)); [|lia].
    repeat split. intros k. destruct (decide _); [lia | reflexivity].
  - cbn [SetTransliterator_loop].
    destruct (decide (chunk_it = end_it)) as [Heq|Hne].
    { exists chunks. repeat split. intros k.
      destruct (decide _); [lia | reflexivity]. }
    destruct (lookup_lt_is_Some_2 chunks chunk_it ltac:(lia)) as [c Hc].
    unfold bind, update. cbn [with_chunks chunks_]. rewrite Hc.
    destruct (IH (S chunk_it)
                (<[chunk_it := CharChunk.SetTransliterator c
                                 transliterator]> chunks))
      as (chunks' & Hloop & Hlen & Hlookup);
      [lia | rewrite length_insert; lia | lia |].
    change (with_chunks (with_chunks comp chunks)
              (<[chunk_it := CharChunk.SetTransliterator c
                               transliterator]> chunks))
      with (with_chunks comp
              (<[chunk_it := CharChunk.SetTransliterator c
                               transliterator]> chunks)).
    exists chunks'. rewrite Hloop.
    split; [reflexivity|]. split; [rewrite Hlen; apply length_insert|].
    intros k. rewrite Hlookup.
    destruct (decide (k = chunk_it)) as [->|Hk].
    + rewrite list_lookup_insert_eq by lia. rewrite Hc.
      destruct (decide _); [lia|]. destruct (decide _); [reflexivity | lia].
    + rewrite list_lookup_insert_ne by congruence.
      destruct (decide (S chunk_it <= k < end_it)%nat);
        destruct (decide (chunk_it <= k < end_it)%nat);
        reflexivity || lia.
Qed.

Lemma SetTransliterator_range position_from position_to transliterator
    comp :
  chunks_ comp <> [] ->
  position_from <= position_to ->
  exists chunks,
    SetTransliterator position_from position_to transliterator comp
    = Ok ([], with_chunks comp chunks)
    /\ length chunks = length (chunks_ comp)
    /\ forall k,
         chunks !! k
         = if decide (fst (GetChunkAt position_from kNullT12r comp) <= k
                      <= fst (GetChunkAt position_to kNullT12r comp))%nat
           then (fun c => CharChunk.SetTransliterator c transliterator)
                  <$> chunks_ comp !! k
           else chunks_ comp !! k.
Proof.
  intros Hne Hle. unfold SetTransliterator.
  rewrite (proj2 (N.ltb_ge position_to position_from) Hle).
  pose proof (GetChunkAt_mono kNullT12r comp _ _ Hle) as Hmono.
  destruct (GetChunkAt position_from kNullT12r comp) as [chunk_it i1]
    eqn:Hfrom.
  destruct (GetChunkAt position_to kNullT12r comp) as [end_it i2] eqn:Hto.
  destruct (GetChunkAt_lookup _ _ _ _ _ Hne Hto) as (c & Hc & _).
  pose proof (lookup_lt_Some _ _ _ Hc) as Hlt. cbn [fst] in *.
  destruct (SetTransliterator_loop_range comp transliterator end_it
              (S (end_ comp)) chunk_it (chunks_ comp))
    as (chunks1 & Hloop & Hlen & Hlookup);
    [lia | lia | unfold end_; lia |].
  rewrite with_chunks_id in Hloop.
  unfold bind, gets, update, ret. rewrite Hfrom. cbn beta iota.
  rewrite Hto. cbn beta iota. rewrite Hloop.
  cbn [with_chunks chunks_].
  assert (chunks1 !! end_it = Some c) as Hc1.
  { rewrite Hlookup. destruct (decide _); [lia | exact Hc]. }
  rewrite Hc1. eexists. split; [reflexivity|].
  split; [rewrite length_insert; exact Hlen|].
  intros k. destruct (decide (k = end_it)) as [->|Hk].
  - rewrite list_lookup_insert_eq by lia. rewrite Hc.
    destruct (decide _); [reflexivity | lia].
  - rewrite list_lookup_insert_ne by congruence. rewrite Hlookup.
    destruct (decide (chunk_it <= k < end_it)%nat);
      destruct (decide (chunk_it <= k <= end_it)%nat);
      reflexivity || lia.
Qed.

(** X21: on a buffer that is not empty, [SetTransliterator] over a range
    with [position_from <= position_to] logs nothing and sets the
    transliterator of every chunk from the one [position_from] is looked up
    in to the one [position_to] is looked up in, both included.  The
    chunks outside that range, the number of chunks, the table and the
    input mode are as before. *)
Theorem SetTransliterator_effect position_from position_to transliterator
    comp :
  chunks_ comp <> [] ->
  position_from <= position_to ->
  exists chunks,
    SetTransliterator position_from position_to transliterator comp
    = Ok ([], with_chunks comp chunks)
    /\ length chunks = length (chunks_ comp)
    /\ forall k,
         chunks !! k
         = if decide (fst (GetChunkAt position_from kNullT12r comp) <= k
                      <= fst (GetChunkAt position_to kNullT12r comp))%nat
           then (fun c => CharChunk.SetTransliterator c transliterator)
                  <$> chunks_ comp !! k
           else chunks_ comp !! k.
Proof. apply SetTransliterator_range. Qed.

(** The length of the buffer is looked up in the last chunk, when that
    chunk is not empty. *)
Lemma GetChunkAt_length transliterator comp c :
  last (chunks_ comp) = Some c ->
  CharChunk.GetLength c transliterator <> 0 ->
  fst (GetChunkAt (sum_lengths transliterator (chunks_ comp)) transliterator
         comp)
  = pred (length (chunks_ comp)).
Proof.
  intros Hlast Hlen. rewrite last_lookup in Hlast.
  pose proof (lookup_lt_Some _ _ _ Hlast) as Hlt.
  destruct (GetChunkAt _ transliterator comp) as [it i] eqn:Hget.
  cbn [fst].
  destruct (GetChunkAt_cases _ _ _ _ _ Hget)
    as [(Hnil & _) | [(c1 & Hc1 & Hi & Hpos & _)
                     | (c1 & Hc1 & Hend & _ & _)]];
    [rewrite Hnil in Hlast; discriminate | | lia].
  pose proof (lookup_lt_Some _ _ _ Hc1) as Hlt1.
  destruct (decide (it = pred (length (chunks_ comp)))) as [|Hne];
    [assumption|].
  assert (S it <= pred (length (chunks_ comp)))%nat as Hbefore by lia.
  pose proof (sum_lengths_drop_lookup_le transliterator (chunks_ comp)
                (S it) _ c Hbefore Hlast) as Hle.
  rewrite (sum_lengths_take_S _ _ _ _ Hc1) in Hle. lia.
Qed.

(** X22: [SetDisplayMode] on a buffer that is not empty, whose default
    lengths add up within [size_t] and whose last chunk is not empty, sets
    the transliterator of every chunk and the input mode, and returns the
    length the buffer then has.  Its position argument is not used. *)
Theorem SetDisplayMode_effect position transliterator comp c :
  sum_lengths kNullT12r (chunks_ comp) <= SIZE_MAX ->
  last (chunks_ comp) = Some c ->
  CharChunk.GetLength c kNullT12r <> 0 ->
  let comp' :=
    Composition.mk
      ((fun c => CharChunk.SetTransliterator c transliterator)
         <$> chunks_ comp)
      transliterator (table_ comp) in
  SetDisplayMode position transliterator comp = Ok (GetLength comp', comp').
Proof.
  intros Hmax Hlast Hlen comp'.
  assert (chunks_ comp <> []) as Hne
    by (intros Hnil; rewrite Hnil in Hlast; discriminate).
  destruct (SetTransliterator_range 0 (GetLength comp) transliterator comp
              Hne ltac:(lia))
    as (chunks & Hset & Hlength & Hlookup).
  assert (chunks
          = (fun c => CharChunk.SetTransliterator c transliterator)
              <$> chunks_ comp) as ->.
  { apply list_eq. intros k. rewrite Hlookup, list_lookup_fmap.
    destruct (decide _) as [_|Hout]; [reflexivity|].
    assert (GetLength comp = sum_lengths kNullT12r (chunks_ comp)) as Hsum.
    { rewrite GetLength_sum. apply N.mod_small. unfold SIZE_MAX in *. lia. }
    rewrite Hsum, (GetChunkAt_length kNullT12r comp c Hlast Hlen) in Hout.
    assert (fst (GetChunkAt 0 kNullT12r comp) = 0%nat) as Hzero.
    { destruct (chunks_ comp) as [|c0 rest] eqn:Hchunks; [congruence|].
      unfold GetChunkAt. rewrite Hchunks. cbn [GetChunkAt_loop].
      rewrite (proj2 (N.leb_le 0 _)) by lia. reflexivity. }
    rewrite Hzero in Hout.
    rewrite (lookup_ge_None_2 (chunks_ comp) k) by lia. reflexivity. }
  unfold SetDisplayMode, bind, gets, SetInputMode. rewrite Hset.
  reflexivity.
Qed.

(** X23: [SetDisplayMode] on the empty buffer dereferences
    [chunks_.end()], in its call of [SetTransliterator]. *)
Theorem SetDisplayMode_empty_buffer position transliterator input_t12r
    table :
  SetDisplayMode position transliterator
    (Composition.mk [] input_t12r table)
  = Fault DerefEnd.
Proof. reflexivity. Qed.

(** ** [GetString], [GetStringWithModes] *)

(** X24: [GetStringWithTrimMode] with [ASIS] is [GetString]: the same
    string and the same log lines, on every buffer and whatever the output
    strings held before. *)
Theorem GetStringWithTrimMode_ASIS output output' comp :
  GetStringWithTrimMode ASIS output comp = GetString output' comp.
Proof.
  unfold GetStringWithTrimMode, GetStringWithModes, GetString.
  destruct (chunks_ comp) as [|c0 rest] eqn:Hchunks; [reflexivity|].
  f_equal.
  rewrite (app_removelast_last c0 (l := c0 :: rest)) at 3 by discriminate.
  rewrite foldl_app. reflexivity.
Qed.

(** X26: on a buffer that is not empty, [GetTransliterator] returns what
    the chunk the position is looked up in answers, and leaves the buffer
    as it was. *)
Theorem GetTransliterator_effect position comp :
  chunks_ comp <> [] ->
  exists c,
    chunks_ comp !! fst (GetChunkAt position kNullT12r comp) = Some c
    /\ GetTransliterator position comp
       = Ok (CharChunk.GetTransliterator c kNullT12r, comp).
Proof.
  intros Hne. unfold GetTransliterator, bind, gets, deref, ret.
  destruct (GetChunkAt position kNullT12r comp) as [chunk_it i] eqn:Hget.
  destruct (GetChunkAt_lookup _ _ _ _ _ Hne Hget) as (c & Hc & _).
  exists c. cbn [fst]. rewrite Hc. auto.
Qed.

End WithCharChunk.

(** ** The contracts on the chunk of direct input *)

Lemma DirectChunk_split_left_length :
  @split_left_length unit unit DirectChunk.chunk DirectChunk.interface.
Proof.
  intros c position Hpos.
  cbn [CharChunk.SplitChunk CharChunk.GetLength DirectChunk.interface
       DirectChunk.SplitChunk DirectChunk.GetLength fst snd] in *.
  unfold DirectChunk.GetLength in *.
  rewrite length_substring by lia. lia.
Qed.

(** ** The statements at concrete buffers *)

Section Concrete.

Import SpecChunk (Raw, ka, ki, empty, buffer_ka, buffer_ka_ki, buffer_t,
                  buffer_tto).
Import DirectChunk (buffer_ad).

Ltac compute_goal :=
  first [ reflexivity
        | discriminate
        | vm_compute; first [reflexivity | discriminate | lia] ].

Lemma GetChunkAt_GetPosition_witness :
  GetChunkAt (GetPosition (Some Raw) 1 buffer_ka_ki + 1) (Some Raw)
    buffer_ka_ki
  = (1%nat, 1).
Proof.
  apply (GetChunkAt_GetPosition (Some Raw) buffer_ka_ki 1 1 ki);
    [compute_goal | compute_goal | compute_goal | right; compute_goal].
Defined.

Lemma GetPosition_GetChunkAt_witness :
  GetPosition (Some Raw)
    (fst (GetChunkAt 3 (Some Raw) buffer_ka_ki)) buffer_ka_ki
  + snd (GetChunkAt 3 (Some Raw) buffer_ka_ki)
  = 3.
Proof.
  apply (GetPosition_GetChunkAt 3 (Some Raw) buffer_ka_ki); compute_goal.
Defined.

Lemma GetChunkAt_beyond_witness :
  exists c,
    last (chunks_ buffer_ka_ki) = Some c
    /\ GetChunkAt 7 None buffer_ka_ki
       = (pred (end_ buffer_ka_ki), CharChunk.GetLength c None).
Proof.
  apply (GetChunkAt_beyond 7 None buffer_ka_ki); compute_goal.
Defined.

Lemma GetChunkAt_monotone_witness :
  (fst (GetChunkAt 1 (Some Raw) buffer_ka_ki)
   < fst (GetChunkAt 3 (Some Raw) buffer_ka_ki))%nat
  \/ (fst (GetChunkAt 1 (Some Raw) buffer_ka_ki)
      = fst (GetChunkAt 3 (Some Raw) buffer_ka_ki)
      /\ snd (GetChunkAt 1 (Some Raw) buffer_ka_ki)
         <= snd (GetChunkAt 3 (Some Raw) buffer_ka_ki)).
Proof.
  apply (GetChunkAt_monotone (Some Raw) buffer_ka_ki 1 3); compute_goal.
Defined.

Lemma GetPosition_monotone_witness :
  GetPosition (Some Raw) 1 buffer_ka_ki
  <= GetPosition (Some Raw) 2 buffer_ka_ki
  /\ GetPosition (Some Raw) 2 buffer_ka_ki
     <= GetPosition (Some Raw) (end_ buffer_ka_ki) buffer_ka_ki.
Proof.
  apply (GetPosition_monotone (Some Raw) buffer_ka_ki 1 2);
    [compute_goal | lia].
Defined.

Lemma ConvertPosition_within_chunk_witness :
  exists position_to,
    ConvertPosition 3 (Some Raw) None buffer_ka_ki
    = Ok (position_to, buffer_ka_ki)
    /\ GetPosition None (fst (GetChunkAt 3 (Some Raw) buffer_ka_ki))
         buffer_ka_ki <= position_to
    /\ position_to
       <= GetPosition None (S (fst (GetChunkAt 3 (Some Raw) buffer_ka_ki)))
            buffer_ka_ki.
Proof.
  apply (ConvertPosition_within_chunk 3 (Some Raw) None buffer_ka_ki);
    compute_goal.
Defined.

Lemma ConvertPosition_monotone_witness :
  ConvertPosition 1 (Some Raw) None buffer_ka_ki = Ok (1, buffer_ka_ki)
  /\ ConvertPosition 3 (Some Raw) None buffer_ka_ki = Ok (2, buffer_ka_ki)
  /\ 1 <= 2.
Proof.
  split; [reflexivity | split; [reflexivity |]].
  apply (ConvertPosition_monotone 1 3 (Some Raw) None buffer_ka_ki 1 2);
    compute_goal.
Defined.

Lemma ConvertPosition_end_of_chunk_witness :
  ConvertPosition (GetPosition (Some Raw) 1 buffer_ka_ki) (Some Raw) None
    buffer_ka_ki
  = Ok (GetPosition None 1 buffer_ka_ki, buffer_ka_ki).
Proof.
  apply (ConvertPosition_end_of_chunk (Some Raw) None buffer_ka_ki 0 ka);
    compute_goal.
Defined.

Lemma ConvertPosition_beyond_witness :
  ConvertPosition 9 (Some Raw) None buffer_ka_ki
  = Ok (GetPosition None (end_ buffer_ka_ki) buffer_ka_ki, buffer_ka_ki).
Proof.
  apply (ConvertPosition_beyond 9 (Some Raw) None buffer_ka_ki ki);
    compute_goal.
Defined.

Lemma MaybeSplitChunkAt_effect_witness :
  exists left it chunks,
    MaybeSplitChunkAt 1 buffer_tto
    = Ok ((left, it), with_chunks buffer_tto chunks)
    /\ (it <= length chunks)%nat
    /\ (chunks = chunks_ buffer_tto
        \/ exists j c i,
             chunks_ buffer_tto !! j = Some c
             /\ 0 < i < CharChunk.GetLength c kNullT12r
             /\ 1 = sum_lengths kNullT12r (take j (chunks_ buffer_tto)) + i
             /\ it = S j
             /\ chunks
                = take j (chunks_ buffer_tto)
                  ++ snd (CharChunk.SplitChunk c kNullT12r i CharChunk.new)
                  :: fst (CharChunk.SplitChunk c kNullT12r i CharChunk.new)
                  :: drop (S j) (chunks_ buffer_tto)).
Proof.
  apply (MaybeSplitChunkAt_effect 1 buffer_tto). right. compute_goal.
Defined.

Lemma MaybeSplitChunkAt_at_position_witness :
  exists left it comp',
    MaybeSplitChunkAt 1 buffer_ad = Ok ((left, it), comp')
    /\ GetPosition kNullT12r it comp' = 1
    /\ GetLength comp' = GetLength buffer_ad.
Proof.
  apply (MaybeSplitChunkAt_at_position 1 buffer_ad);
    [exact DirectChunk_split_keeps_length
    | exact DirectChunk_split_left_length
    | compute_goal | compute_goal].
Defined.

Lemma empty_buffer_position_witness :
  MaybeSplitChunkAt 1 empty = Fault DerefEnd
  /\ DeleteAt 1 empty = Fault DerefEnd
  /\ (forall fuel input,
        input <> EmptyString -> InsertAt fuel 1 input empty = Fault DerefEnd)
  /\ (forall fuel key preedit,
        ~ (key = EmptyString /\ preedit = EmptyString) ->
        InsertKeyAndPreeditAt fuel 1 key preedit empty = Fault DerefEnd).
Proof.
  apply (empty_buffer_position 1 None SpecChunk.scenario_table).
  compute_goal.
Defined.

Lemma DeleteAt_beyond_witness :
  DeleteAt 5 buffer_ka_ki = Ok (GetLength buffer_ka_ki, buffer_ka_ki).
Proof. apply (DeleteAt_beyond 5 buffer_ka_ki); compute_goal. Defined.

Lemma InsertAt_safe_witness :
  match InsertAt 2 1 "ki"%string buffer_ka with
  | Ok (_, comp') =>
      (length (chunks_ buffer_ka) <= length (chunks_ comp'))%nat
      /\ input_t12r_ comp' = input_t12r_ buffer_ka
      /\ table_ comp' = table_ buffer_ka
  | Fault _ => False
  | OutOfFuel => True
  end.
Proof.
  apply (InsertAt_safe 2 1 "ki"%string buffer_ka). right. compute_goal.
Defined.


Lemma InsertKeyAndPreeditAt_safe_witness :
  InsertKeyAndPreeditAt 1 5 EmptyString EmptyString empty = Ok (5, empty)
  /\ match InsertKeyAndPreeditAt 1 1 "k"%string "か"%string buffer_ka with
     | Ok (_, comp') =>
         (length (chunks_ buffer_ka) <= length (chunks_ comp'))%nat
         /\ input_t12r_ comp' = input_t12r_ buffer_ka
         /\ table_ comp' = table_ buffer_ka
     | Fault _ => False
     | OutOfFuel => True
     end.
Proof.
  split.
  - apply (proj1 (InsertKeyAndPreeditAt_safe 1 5 EmptyString EmptyString
                    empty)).
    split; reflexivity.
  - apply (proj2 (InsertKeyAndPreeditAt_safe 1 1 "k"%string "か"%string
                    buffer_ka)).
    right. compute_goal.
Defined.

Lemma SetTransliterator_effect_witness :
  exists chunks,
    SetTransliterator 0 1 (Some Raw) buffer_ka_ki
    = Ok ([], with_chunks buffer_ka_ki chunks)
    /\ length chunks = length (chunks_ buffer_ka_ki)
    /\ forall k,
         chunks !! k
         = if decide (fst (GetChunkAt 0 kNullT12r buffer_ka_ki) <= k
                      <= fst (GetChunkAt 1 kNullT12r buffer_ka_ki))%nat
           then (fun c => CharChunk.SetTransliterator c (Some Raw))
                  <$> chunks_ buffer_ka_ki !! k
           else chunks_ buffer_ka_ki !! k.
Proof.
  apply (SetTransliterator_effect 0 1 (Some Raw) buffer_ka_ki);
    compute_goal.
Defined.

Lemma SetDisplayMode_effect_witness :
  SetDisplayMode 0 (Some Raw) buffer_ka_ki
  = Ok (4,
        Composition.mk
          [SpecChunk.mk "ka"%string "か"%string ""%string (Some Raw);
           SpecChunk.mk "ki"%string "き"%string ""%string (Some Raw)]
          (Some Raw) SpecChunk.scenario_table).
Proof.
  refine (SetDisplayMode_effect 0 (Some Raw) buffer_ka_ki ki _ _ _);
    compute_goal.
Defined.

Lemma DeleteAt_removes_one_unit_witness :
  exists comp',
    DeleteAt 1 buffer_ad = Ok (1, comp')
    /\ sum_lengths kNullT12r (chunks_ comp') + 1
       = sum_lengths kNullT12r (chunks_ buffer_ad).
Proof.
  apply (DeleteAt_removes_one_unit 1 buffer_ad);
    [exact DirectChunk_split_keeps_length
    | exact DirectChunk_split_left_length
    | compute_goal |].
  intros c Hc. vm_compute in Hc. injection Hc as <-. compute_goal.
Defined.

Lemma MaybeSplitChunkAt_at_length_witness :
  MaybeSplitChunkAt 2 buffer_ka_ki = Ok ((Some 1%nat, 2%nat), buffer_ka_ki).
Proof.
  refine (MaybeSplitChunkAt_at_length buffer_ka_ki _ _); [compute_goal|].
  intros c Hc. vm_compute in Hc. injection Hc as <-. compute_goal.
Defined.

Lemma GetTransliterator_effect_witness :
  exists c,
    chunks_ buffer_ka_ki !! fst (GetChunkAt 1 kNullT12r buffer_ka_ki)
    = Some c
    /\ GetTransliterator 1 buffer_ka_ki
       = Ok (CharChunk.GetTransliterator c kNullT12r, buffer_ka_ki).
Proof.
  apply (GetTransliterator_effect 1 buffer_ka_ki). compute_goal.
Defined.

End Concrete.

End CompositionExtFacts.
